(** * OSC 633 parser: a shallow embedding of [ts/index.ts]

    The TypeScript module scans a stream of text fragments for the
    terminal control sequences [ESC ] 633 ; TYPE [; PARAMS] BEL] and
    yields one entry per sequence, interleaved with the literal text
    found between sequences.

    Strings are lists of characters, the async iterable of fragments is
    a list of strings and the async generator of entries is the list of
    the entries it yields, in order.  [undefined] is [None]; an index
    result of [-1] is [None]. *)

From Stdlib Require Import List Ascii Arith Bool Lia.
From Stdlib Require String.
Import ListNotations String.StringSyntax.

Local Open Scope list_scope.

(** ** Strings *)

Definition str := list ascii.

(** A string literal of the source. *)
Definition lit (s : String.string) : str := String.list_ascii_of_string s.
Arguments lit s%_string_scope.

Module Js.

(** [a === b] on strings. *)
Fixpoint eqb (a b : str) : bool :=
  match a, b with
  | [], [] => true
  | x :: a', y :: b' => Ascii.eqb x y && eqb a' b'
  | _, _ => false
  end.

(** [s.startsWith(p)]. *)
Fixpoint startsWith (s p : str) {struct p} : bool :=
  match p, s with
  | [], _ => true
  | y :: p', x :: s' => Ascii.eqb x y && startsWith s' p'
  | _ :: _, [] => false
  end.

(** [s.indexOf(c)] for a one-character [c]; [None] stands for [-1]. *)
Fixpoint indexOf (c : ascii) (s : str) : option nat :=
  match s with
  | [] => None
  | x :: s' => if Ascii.eqb x c then Some 0 else option_map S (indexOf c s')
  end.

(** [s.indexOf(c, from)]: the search starts at position [from] and
    the result is an index into [s]. *)
Definition indexOfFrom (c : ascii) (s : str) (from : nat) : option nat :=
  option_map (Nat.add from) (indexOf c (skipn from s)).

(** [s.slice(a)] and [s.slice(a, b)] for non-negative indices. *)
Definition sliceFrom (a : nat) (s : str) : str := skipn a s.
Definition slice (a b : nat) (s : str) : str := firstn (b - a) (skipn a s).

(** [s.split(c)] for a one-character separator: never empty. *)
Fixpoint split (c : ascii) (s : str) : list str :=
  match s with
  | [] => [[]]
  | x :: s' =>
      if Ascii.eqb x c then [] :: split c s'
      else match split c s' with
           | [] => [[x]]
           | p :: ps => (x :: p) :: ps
           end
  end.

(** [parts.join(c)]. *)
Fixpoint join (c : ascii) (parts : list str) : str :=
  match parts with
  | [] => []
  | [p] => p
  | p :: ps => p ++ c :: join c ps
  end.

(** [s.replace(/pat/g, rep)] for a literal, non-empty pattern: the
    matches are found from left to right and do not overlap.  [skip]
    counts the characters of a match that are still to be dropped. *)
Fixpoint replaceFrom (pat rep : str) (skip : nat) (s : str) : str :=
  match s with
  | [] => []
  | x :: s' =>
      match skip with
      | S k => replaceFrom pat rep k s'
      | 0 =>
          if startsWith s pat
          then rep ++ replaceFrom pat rep (length pat - 1) s'
          else x :: replaceFrom pat rep 0 s'
      end
  end.

Definition replaceAll (pat rep : str) (s : str) : str :=
  replaceFrom pat rep 0 s.

End Js.

(** ** Constants *)

Definition ESC : ascii := "027"%char.
Definition ST : ascii := "007"%char.
Definition SEMI : ascii := ";"%char.
Definition EQUALS : ascii := "="%char.
Definition NEWLINE : ascii := "010"%char.
Definition BACKSLASH : ascii := "\"%char.

Definition OSC633_START : str := ESC :: lit "]633;".

Definition A : str := lit "A".
Definition B : str := lit "B".
Definition C : str := lit "C".
Definition D : str := lit "D".
Definition E : str := lit "E".
Definition P : str := lit "P".

(** ** Entries *)

(** The fields that class [Invalid] adds to [Error]. *)
Record InvalidInfo := mkInvalid {
  sequence : str;
  oscType : str;
  parts : list str;
  message : str
}.

Inductive Entry :=
| PromptStart
| PromptEnd
| CommandStart
| CommandEnd (exitCode : option str)
| CommandLine (command : str) (nonce : option str)
| PropertyUpdate (name value : str)
| Output (value : str)
| Invalid (info : InvalidInfo).

(** [new Invalid(parts, message)]. *)
Definition newInvalid (ps : list str) (msg : str) : Entry :=
  Invalid {| sequence := OSC633_START ++ Js.join SEMI ps ++ [ST];
             oscType := match nth_error ps 0 with Some t => t | None => [] end;
             parts := ps;
             message := msg |}.

Definition createOutput (value : str) : Entry := Output value.

(** ** Decoding one sequence *)

Definition unescapeValue (value : str) : str :=
  Js.replaceAll (lit "\\") (lit "\")
    (Js.replaceAll (lit "\x0a") [NEWLINE]
       (Js.replaceAll (lit "\x3b") [SEMI] value)).

Definition parseCommandEnd (ps : list str) : Entry :=
  CommandEnd (nth_error ps 1).

Definition parseCommandLine (ps : list str) : Entry :=
  match nth_error ps 1 with
  | None => newInvalid ps (lit "Missing command parameter")
  | Some command => CommandLine (unescapeValue command) (nth_error ps 2)
  end.

Definition parsePropertyUpdate (ps : list str) : Entry :=
  match nth_error ps 1 with
  | None => newInvalid ps (lit "Missing name-value parameter")
  | Some propertyPart =>
      match Js.indexOf EQUALS propertyPart with
      | None => newInvalid ps (lit "Invalid property format: missing '='")
      | Some equalIndex =>
          let name := Js.slice 0 equalIndex propertyPart in
          if Js.eqb name []
          then newInvalid ps (lit "Missing property name")
          else
            let value := Js.sliceFrom (equalIndex + 1) propertyPart in
            PropertyUpdate name (unescapeValue value)
      end
  end.

Definition parseSequence (sequence : str) : Entry :=
  let ps := Js.split SEMI sequence in
  match nth_error ps 0 with
  | None => newInvalid ps (lit "Unknown sequence type: undefined")
  | Some type =>
      if Js.eqb type A then PromptStart
      else if Js.eqb type B then PromptEnd
      else if Js.eqb type C then CommandStart
      else if Js.eqb type D then parseCommandEnd ps
      else if Js.eqb type E then parseCommandLine ps
      else if Js.eqb type P then parsePropertyUpdate ps
      else newInvalid ps (lit "Unknown sequence type: " ++ type)
  end.

Definition isPartialOSC633Start (s : str) : bool :=
  let prefix := Js.slice 0 (length s) OSC633_START in
  Js.eqb s prefix.

(** ** The scanner *)

(** The two variables of [parse] that live across fragments. *)
Record Scan := mkScan {
  buffer : str;
  outputBuffer : str
}.

(** One turn of the [while] loop leaves it or goes round again, in the
    second case after yielding the listed entries. *)
Inductive Turn :=
| Break (s : Scan)
| Continue (yielded : list Entry) (s : Scan).

(** The body of [while (buffer.length > 0)]. *)
Definition turn (s : Scan) : Turn :=
  let buffer := s.(buffer) in
  let outputBuffer := s.(outputBuffer) in
  match Js.indexOf ESC buffer with
  | None => Break (mkScan [] (outputBuffer ++ buffer))
  | Some escIndex =>
      let remaining := Js.sliceFrom escIndex buffer in
      if negb (Js.startsWith remaining OSC633_START) then
        if isPartialOSC633Start remaining then
          let outputBuffer :=
            if 0 <? escIndex then outputBuffer ++ Js.slice 0 escIndex buffer
            else outputBuffer in
          Break (mkScan (Js.sliceFrom escIndex buffer) outputBuffer)
        else
          Continue []
            (mkScan (Js.sliceFrom (escIndex + 1) buffer)
                    (outputBuffer ++ Js.slice 0 (escIndex + 1) buffer))
      else
        match Js.indexOfFrom ST buffer escIndex with
        | None =>
            let outputBuffer :=
              if 0 <? escIndex then outputBuffer ++ Js.slice 0 escIndex buffer
              else outputBuffer in
            Break (mkScan (Js.sliceFrom escIndex buffer) outputBuffer)
        | Some stIndex =>
            let outputBuffer :=
              if 0 <? escIndex then outputBuffer ++ Js.slice 0 escIndex buffer
              else outputBuffer in
            let flushed :=
              if 0 <? length outputBuffer then [createOutput outputBuffer]
              else [] in
            let outputBuffer :=
              if 0 <? length outputBuffer then [] else outputBuffer in
            let sequence :=
              Js.slice (escIndex + length OSC633_START) stIndex buffer in
            Continue (flushed ++ [parseSequence sequence])
              (mkScan (Js.sliceFrom (stIndex + 1) buffer) outputBuffer)
        end
  end.

(** [while (buffer.length > 0) { ... }].  Every turn that goes round
    again shortens the buffer, so [fuel] at least the length of the
    buffer is never used up before the loop is left (see
    [while_loop_fuel] and [while_loop_run] below). *)
Fixpoint while_loop (fuel : nat) (s : Scan) : list Entry * Scan :=
  match fuel with
  | 0 => ([], s)
  | S fuel' =>
      if 0 <? length s.(buffer) then
        match turn s with
        | Break s' => ([], s')
        | Continue ys s' =>
            let (ys', s'') := while_loop fuel' s' in (ys ++ ys', s'')
        end
      else ([], s)
  end.

(** The body of [for await (const chunk of stream)]. *)
Definition feed (s : Scan) (chunk : str) : list Entry * Scan :=
  let buffer := s.(buffer) ++ chunk in
  while_loop (length buffer) (mkScan buffer s.(outputBuffer)).

(** The whole [for await] loop. *)
Fixpoint feedAll (s : Scan) (chunks : list str) : list Entry * Scan :=
  match chunks with
  | [] => ([], s)
  | chunk :: chunks' =>
      let (ys, s') := feed s chunk in
      let (ys', s'') := feedAll s' chunks' in
      (ys ++ ys', s'')
  end.

(** The statement after the loop: [// Output remaining buffer]. *)
Definition finish (s : Scan) : list Entry :=
  if (0 <? length s.(outputBuffer)) || (0 <? length s.(buffer))
  then [createOutput (s.(outputBuffer) ++ s.(buffer))]
  else [].

Definition initial : Scan := mkScan [] [].

Definition parse (stream : list str) : list Entry :=
  let (ys, s) := feedAll initial stream in
  ys ++ finish s.

(** ** Definitions for the statements *)

(** What is yielded for the accumulated output before a sequence. *)
Definition flushed (out : str) : list Entry :=
  if 0 <? length out then [createOutput out] else [].

(** Every buffer has one of five forms, according to the tests that
    [turn] makes: text without an escape character; text followed by an
    escape character that begins a proper prefix of the sequence start,
    or that begins something else, or that begins a sequence without a
    terminator, or a sequence with its terminator. *)
Inductive Form : str -> Prop :=
| FText t :
    ~ In ESC t -> Form t
| FPartial t r :
    ~ In ESC t ->
    Js.startsWith (ESC :: r) OSC633_START = false ->
    isPartialOSC633Start (ESC :: r) = true ->
    Form (t ++ ESC :: r)
| FStray t r :
    ~ In ESC t ->
    Js.startsWith (ESC :: r) OSC633_START = false ->
    isPartialOSC633Start (ESC :: r) = false ->
    Form (t ++ ESC :: r)
| FOpen t body :
    ~ In ESC t -> ~ In ST body ->
    Form (t ++ OSC633_START ++ body)
| FClosed t body rest :
    ~ In ESC t -> ~ In ST body ->
    Form (t ++ OSC633_START ++ body ++ ST :: rest).

(** The loop run on a state, with the fuel that [feed] gives it. *)
Definition scan (s : Scan) : list Entry * Scan :=
  while_loop (length s.(buffer)) s.

(** Entries yielded before those of a later run. *)
Definition after (ys : list Entry) (r : list Entry * Scan) :
  list Entry * Scan :=
  (ys ++ fst r, snd r).

(** The loop as a relation: what the source's [while] does, with no
    bound on the number of turns. *)
Inductive Run : Scan -> list Entry -> Scan -> Prop :=
| RunDone s :
    s.(buffer) = [] -> Run s [] s
| RunBreak s s' :
    s.(buffer) <> [] -> turn s = Break s' -> Run s [] s'
| RunContinue s ys s' ys' s'' :
    s.(buffer) <> [] -> turn s = Continue ys s' -> Run s' ys' s'' ->
    Run s (ys ++ ys') s''.

(** A state that the loop leaves as it is. *)
Definition settled (s : Scan) : Prop := scan s = ([], s).

Definition isOutput (e : Entry) : bool :=
  match e with Output _ => true | _ => false end.

Definition isInvalid (e : Entry) : bool :=
  match e with Invalid _ => true | _ => false end.

(** The text of a sequence on the wire, rebuilt from its fields: the
    sequence start, the fields joined with [;], the terminator. *)
Definition wireText (body : str) : str :=
  OSC633_START ++ Js.join SEMI (Js.split SEMI body) ++ [ST].

(** The entries that the loop yields come in groups: a sequence entry,
    alone or after one [Output] with a non-empty value. *)
Inductive Groups : list Entry -> Prop :=
| GroupsNil : Groups []
| GroupsSeq e ys :
    isOutput e = false -> Groups ys -> Groups (e :: ys)
| GroupsOut value e ys :
    value <> [] -> isOutput e = false -> Groups ys ->
    Groups (Output value :: e :: ys).

(** What [parse] has yielded when the source is exhausted, and the
    state in which the [for await] loop leaves the two variables. *)
Definition emitted (chunks : list str) : list Entry :=
  fst (feedAll initial chunks).

Definition residue (chunks : list str) : Scan :=
  snd (feedAll initial chunks).

(** The statement that a malformed sequence between [prefixText] and
    [rest] is reported after the entries for [prefixText] and before
    those for [rest]. *)
Definition ResumesAfter (prefixText body rest : str) : Prop :=
  parse [prefixText ++ OSC633_START ++ body ++ ST :: rest]
  = parse [prefixText] ++ [parseSequence body] ++ parse [rest].

(** [s.includes(pat)]. *)
Fixpoint includes (s pat : str) : bool :=
  Js.startsWith s pat
  || match s with
     | [] => false
     | _ :: s' => includes s' pat
     end.

(** The unescaping in the words of the specification: the three
    substitutions are made on the original text, none of them on the
    result of another, so that every marker of the text is decoded
    once, from left to right.  [skip] counts the characters of a marker
    that are still to be dropped. *)
Fixpoint unescapeFrom (skip : nat) (s : str) : str :=
  match s with
  | [] => []
  | x :: s' =>
      match skip with
      | S k => unescapeFrom k s'
      | 0 =>
          if Js.startsWith s (lit "\x3b") then SEMI :: unescapeFrom 3 s'
          else if Js.startsWith s (lit "\x0a") then NEWLINE :: unescapeFrom 3 s'
          else if Js.startsWith s (lit "\\") then BACKSLASH :: unescapeFrom 1 s'
          else x :: unescapeFrom 0 s'
      end
  end.

Definition unescapeOnePass (value : str) : str := unescapeFrom 0 value.

(** The text that an entry comes from: the value of an [Output], and
    for a sequence entry the sequence start, a body without terminator
    that decodes to the entry, and the terminator. *)
Inductive Source : Entry -> str -> Prop :=
| SourceOutput value :
    Source (Output value) value
| SourceSequence body :
    ~ In ST body ->
    Source (parseSequence body) (OSC633_START ++ body ++ [ST]).

(** The entries other than [Output]. *)
Definition sequenceEntries (ys : list Entry) : list Entry :=
  filter (fun e => negb (isOutput e)) ys.

(** The helpers of [ts/index.test.ts] that build the text of a
    sequence.  An optional argument that is [undefined] or the empty
    string adds nothing. *)
Module Test.

Definition OSC633 : str := ESC :: lit "]633;".

Definition truthy (s : option str) : bool :=
  match s with
  | Some (_ :: _) => true
  | _ => false
  end.

Definition optional (s : option str) : str :=
  match s with
  | Some s' => if truthy s then SEMI :: s' else []
  | None => []
  end.

Definition A : str := OSC633 ++ lit "A" ++ [ST].
Definition B : str := OSC633 ++ lit "B" ++ [ST].
Definition C : str := OSC633 ++ lit "C" ++ [ST].

Definition D (exitCode : option str) : str :=
  OSC633 ++ lit "D" ++ optional exitCode ++ [ST].

Definition E (command : str) (nonce : option str) : str :=
  OSC633 ++ lit "E;" ++ command ++ optional nonce ++ [ST].

Definition P (name value : str) : str :=
  OSC633 ++ lit "P;" ++ name ++ EQUALS :: value ++ [ST].

Definition InvalidSequence (type : str) (params : option str) : str :=
  OSC633 ++ type ++ optional params ++ [ST].

Definition parseToArray (input : list str) : list Entry := parse input.

End Test.

(** No sequence start begins inside the output accumulator, when the
    accumulator is read together with the buffer that follows it. *)
Definition startsAfter (out buf : str) : Prop :=
  forall a b, out ++ buf = a ++ OSC633_START ++ b -> length out <= length a.

(** An optional field of an entry, behind its separator. *)
Definition optionalField (field : option str) : str :=
  match field with
  | Some f => SEMI :: f
  | None => []
  end.

(** The text rebuilt from an entry, in the words of the specification:
    the value of an [Output], the [sequence] of an [Invalid], and for
    any other entry the sequence start, the type and the fields of the
    entry joined with [;], and the terminator. *)
Definition entryText (e : Entry) : str :=
  match e with
  | PromptStart => OSC633_START ++ A ++ [ST]
  | PromptEnd => OSC633_START ++ B ++ [ST]
  | CommandStart => OSC633_START ++ C ++ [ST]
  | CommandEnd exitCode => OSC633_START ++ D ++ optionalField exitCode ++ [ST]
  | CommandLine command nonce =>
      OSC633_START ++ E ++ SEMI :: command ++ optionalField nonce ++ [ST]
  | PropertyUpdate name value =>
      OSC633_START ++ P ++ SEMI :: name ++ EQUALS :: value ++ [ST]
  | Output value => value
  | Invalid info => info.(sequence)
  end.

(** The bodies whose decoding fails, by their fields: [E] or [P]
    alone, [P] with a second field that has no [=] or begins with it,
    and a first field that is none of the six types. *)
Inductive Malformed : str -> Prop :=
| MissingCommand : Malformed E
| MissingNameValue : Malformed P
| MissingEquals body part more :
    Js.split SEMI body = P :: part :: more -> ~ In EQUALS part ->
    Malformed body
| MissingName body raw more :
    Js.split SEMI body = P :: (EQUALS :: raw) :: more ->
    Malformed body
| UnknownType body type rest :
    Js.split SEMI body = type :: rest -> ~ In type [A; B; C; D; E; P] ->
    Malformed body.

(** The bodies that have the fields that their entry keeps and no
    other, with a command or value that unescaping leaves as it is;
    and the bodies whose decoding fails. *)
Inductive Rebuildable : str -> Prop :=
| RebuildA : Rebuildable A
| RebuildB : Rebuildable B
| RebuildC : Rebuildable C
| RebuildD : Rebuildable D
| RebuildDCode exitCode :
    ~ In SEMI exitCode -> Rebuildable (D ++ SEMI :: exitCode)
| RebuildE command :
    ~ In SEMI command -> unescapeValue command = command ->
    Rebuildable (E ++ SEMI :: command)
| RebuildENonce command nonce :
    ~ In SEMI command -> ~ In SEMI nonce ->
    unescapeValue command = command ->
    Rebuildable (E ++ SEMI :: command ++ SEMI :: nonce)
| RebuildP name value :
    name <> [] -> ~ In EQUALS name -> ~ In SEMI name ->
    ~ In SEMI value -> unescapeValue value = value ->
    Rebuildable (P ++ SEMI :: name ++ EQUALS :: value)
| RebuildMalformed body :
    Malformed body -> Rebuildable body.

(** Every sequence start of the text that is followed by a terminator
    has, up to the first terminator, a body that can be rebuilt. *)
Definition EverySequenceRebuildable (text : str) : Prop :=
  forall before body after,
    text = before ++ OSC633_START ++ body ++ ST :: after ->
    ~ In ST body -> Rebuildable body.

(** The escaping that the README of the repository prescribes for the
    command of [E] and the value of [P]: the semicolon as [\x3b], the
    newline as [\x0a], the backslash doubled. *)
Definition readmeEscapeChar (x : ascii) : str :=
  if Ascii.eqb x SEMI then lit "\x3b"
  else if Ascii.eqb x NEWLINE then lit "\x0a"
  else if Ascii.eqb x BACKSLASH then lit "\\"
  else [x].

Definition readmeEscape (value : str) : str :=
  concat (map readmeEscapeChar value).

(** The sequences that the tests of the repository build. *)
Definition seqA : str := OSC633_START ++ A ++ [ST].
Definition seqB : str := OSC633_START ++ B ++ [ST].
Definition seqC : str := OSC633_START ++ C ++ [ST].
Definition seqD (exitCode : str) : str :=
  OSC633_START ++ D ++ SEMI :: exitCode ++ [ST].
Definition seqE (command : str) : str :=
  OSC633_START ++ E ++ SEMI :: command ++ [ST].
Definition seqP (name value : str) : str :=
  OSC633_START ++ P ++ SEMI :: name ++ EQUALS :: value ++ [ST].

(** ** The tests of the repository, run on the model *)

Example test_single_chunk :
  parse [seqA ++ lit "user@host:~$ " ++ seqB ++ lit "echo test"
         ++ seqE (lit "echo test") ++ seqC ++ lit "test" ++ [NEWLINE]
         ++ seqD (lit "0") ++ seqP (lit "Cwd") (lit "/home/user")]
  = [PromptStart; Output (lit "user@host:~$ "); PromptEnd;
     Output (lit "echo test"); CommandLine (lit "echo test") None;
     CommandStart; Output (lit "test" ++ [NEWLINE]);
     CommandEnd (Some (lit "0"));
     PropertyUpdate (lit "Cwd") (lit "/home/user")].
Proof. vm_compute. reflexivity. Qed.

Example test_partial_sequences_across_chunks :
  parse [lit "before " ++ [ESC]; lit "]633"; lit ";A" ++ [ST] ++ lit " after"]
  = [Output (lit "before "); PromptStart; Output (lit " after")].
Proof. vm_compute. reflexivity. Qed.

Example test_escaped_property_value :
  parse [seqP (lit "Cwd") (lit "/path\x3bwith\x0asemicolon\\and\\backslash")]
  = [PropertyUpdate (lit "Cwd")
       (lit "/path;with" ++ [NEWLINE] ++ lit "semicolon\and\backslash")].
Proof. vm_compute. reflexivity. Qed.

Example test_unknown_sequence_type :
  parse [lit "before"; OSC633_START ++ lit "X;something" ++ [ST]; lit "after"]
  = [Output (lit "before");
     Invalid {| sequence := OSC633_START ++ lit "X;something" ++ [ST];
                oscType := lit "X";
                parts := [lit "X"; lit "something"];
                message := lit "Unknown sequence type: X" |};
     Output (lit "after")].
Proof. vm_compute. reflexivity. Qed.

(** ** Facts about the string operations *)

Section StringFacts.

Implicit Types (s p r : str) (c x : ascii).

Lemma eqb_eq s p : Js.eqb s p = true <-> s = p.
Proof.
  revert p; induction s as [|x s IH]; intros [|y p]; simpl;
    try (split; (discriminate || reflexivity)).
  rewrite andb_true_iff, Ascii.eqb_eq, IH.
  split; [intros [-> ->]; reflexivity | intros H; inversion H; auto].
Qed.

Lemma eqb_refl s : Js.eqb s s = true.
Proof. apply eqb_eq; reflexivity. Qed.

Lemma eqb_neq s p : Js.eqb s p = false <-> s <> p.
Proof.
  rewrite <- eqb_eq. destruct (Js.eqb s p); split; congruence.
Qed.

Lemma startsWith_app p r : Js.startsWith (p ++ r) p = true.
Proof.
  induction p as [|y p IH]; simpl; [reflexivity|].
  rewrite Ascii.eqb_refl, IH; reflexivity.
Qed.

Lemma startsWith_true s p :
  Js.startsWith s p = true -> exists r, s = p ++ r.
Proof.
  revert s; induction p as [|y p IH]; intros s H; simpl in *.
  - exists s; reflexivity.
  - destruct s as [|x s]; [discriminate|].
    apply andb_true_iff in H as [Hx Hs].
    apply Ascii.eqb_eq in Hx; subst y.
    destruct (IH _ Hs) as [r ->]. exists r; reflexivity.
Qed.

Lemma indexOf_notin c s : ~ In c s -> Js.indexOf c s = None.
Proof.
  induction s as [|x s IH]; simpl; intros H; [reflexivity|].
  destruct (Ascii.eqb_spec x c) as [->|_]; [exfalso; auto|].
  rewrite IH; auto.
Qed.

Lemma indexOf_None c s : Js.indexOf c s = None -> ~ In c s.
Proof.
  induction s as [|x s IH]; simpl; intros H; [tauto|].
  destruct (Ascii.eqb_spec x c) as [->|Hn]; [discriminate|].
  destruct (Js.indexOf c s); [discriminate|].
  intros [Hx|Hin]; [congruence | exact (IH eq_refl Hin)].
Qed.

Lemma indexOf_app c p s :
  ~ In c p ->
  Js.indexOf c (p ++ s) = option_map (Nat.add (length p)) (Js.indexOf c s).
Proof.
  induction p as [|x p IH]; simpl; intros H.
  - destruct (Js.indexOf c s); reflexivity.
  - destruct (Ascii.eqb_spec x c) as [->|_]; [exfalso; auto|].
    rewrite IH by auto. destruct (Js.indexOf c s); reflexivity.
Qed.

Lemma indexOf_found c p s :
  ~ In c p -> Js.indexOf c (p ++ c :: s) = Some (length p).
Proof.
  intros H. rewrite indexOf_app by assumption. simpl.
  rewrite Ascii.eqb_refl. simpl. f_equal. lia.
Qed.

Lemma indexOf_Some c s i :
  Js.indexOf c s = Some i ->
  exists p r, s = p ++ c :: r /\ ~ In c p /\ length p = i.
Proof.
  revert i; induction s as [|x s IH]; simpl; intros i H; [discriminate|].
  destruct (Ascii.eqb_spec x c) as [->|Hn].
  - inversion H; subst. exists [], s. simpl; auto.
  - destruct (Js.indexOf c s) as [j|]; [|discriminate].
    inversion H; subst.
    destruct (IH j eq_refl) as (p & r & -> & Hp & Hl).
    exists (x :: p), r. simpl. repeat split; auto.
    intros [Hx|Hin]; auto.
Qed.

Lemma sliceFrom_app p s : Js.sliceFrom (length p) (p ++ s) = s.
Proof.
  unfold Js.sliceFrom. rewrite skipn_app, skipn_all, Nat.sub_diag.
  reflexivity.
Qed.

Lemma slice_prefix p s : Js.slice 0 (length p) (p ++ s) = p.
Proof.
  unfold Js.slice. simpl. rewrite Nat.sub_0_r, firstn_app, firstn_all.
  rewrite Nat.sub_diag. simpl. apply app_nil_r.
Qed.

Lemma slice_middle p s r :
  Js.slice (length p) (length p + length s) (p ++ s ++ r) = s.
Proof.
  unfold Js.slice. rewrite skipn_app, skipn_all, Nat.sub_diag. simpl.
  replace (length p + length s - length p) with (length s) by lia.
  rewrite firstn_app, firstn_all, Nat.sub_diag. simpl. apply app_nil_r.
Qed.

(** Splitting on a separator and joining with it gives the string
    back. *)
Lemma split_nonempty c s : Js.split c s <> [].
Proof.
  destruct s as [|x s]; simpl; [discriminate|].
  destruct (Ascii.eqb x c); [discriminate|].
  destruct (Js.split c s); discriminate.
Qed.

Lemma join_split c s : Js.join c (Js.split c s) = s.
Proof.
  induction s as [|x s IH]; simpl; [reflexivity|].
  destruct (Ascii.eqb_spec x c) as [->|Hn].
  - pose proof (split_nonempty c s) as Hne.
    destruct (Js.split c s) as [|q qs]; [congruence|].
    simpl in *. rewrite IH. reflexivity.
  - pose proof (split_nonempty c s) as Hne.
    destruct (Js.split c s) as [|q qs]; [congruence|].
    destruct qs as [|q' qs]; simpl in *; rewrite <- IH; reflexivity.
Qed.

(** The first part of a split and the rest, in terms of the text. *)
Lemma split_no_sep c s : ~ In c s -> Js.split c s = [s].
Proof.
  induction s as [|x s IH]; simpl; intros H; [reflexivity|].
  destruct (Ascii.eqb_spec x c) as [->|_]; [exfalso; auto|].
  rewrite IH by auto. reflexivity.
Qed.

Lemma split_sep c p s :
  ~ In c p -> Js.split c (p ++ c :: s) = p :: Js.split c s.
Proof.
  induction p as [|x p IH]; simpl; intros H.
  - rewrite Ascii.eqb_refl. reflexivity.
  - destruct (Ascii.eqb_spec x c) as [->|_]; [exfalso; auto|].
    rewrite IH by auto. reflexivity.
Qed.

Lemma split_head_no_sep c s t ts : Js.split c s = t :: ts -> ~ In c t.
Proof.
  revert t ts; induction s as [|x s IH]; simpl; intros t ts H.
  - inversion H; subst. simpl; tauto.
  - destruct (Ascii.eqb_spec x c) as [->|Hn].
    + inversion H; subst. simpl; tauto.
    + destruct (Js.split c s) as [|q qs] eqn:Hq.
      * inversion H; subst. simpl. intuition congruence.
      * inversion H; subst. specialize (IH _ _ eq_refl).
        simpl. intuition congruence.
Qed.

End StringFacts.

(** ** One turn of the loop, by the form of the buffer *)

Section Turn.

Implicit Types (t r body rest out : str).

Lemma start_no_ST : ~ In ST OSC633_START.
Proof. vm_compute. intuition discriminate. Qed.

Lemma form_of s : Form s.
Proof.
  destruct (Js.indexOf ESC s) as [i|] eqn:Hesc.
  - apply indexOf_Some in Hesc as (t & r & -> & Ht & _).
    destruct (Js.startsWith (ESC :: r) OSC633_START) eqn:Hstart.
    + apply startsWith_true in Hstart as [b Hb]. rewrite Hb.
      destruct (Js.indexOf ST b) as [j|] eqn:Hst.
      * apply indexOf_Some in Hst as (body & rest & -> & Hbody & _).
        now apply FClosed.
      * apply indexOf_None in Hst. now apply FOpen.
    + destruct (isPartialOSC633Start (ESC :: r)) eqn:Hpart.
      * now apply FPartial.
      * now apply FStray.
  - apply indexOf_None in Hesc. now apply FText.
Qed.

Lemma indexOf_start t s :
  ~ In ESC t -> Js.indexOf ESC (t ++ OSC633_START ++ s) = Some (length t).
Proof.
  intros Ht. change (OSC633_START ++ s) with (ESC :: (lit "]633;" ++ s)).
  now apply indexOf_found.
Qed.

Lemma turn_text t out :
  ~ In ESC t -> turn (mkScan t out) = Break (mkScan [] (out ++ t)).
Proof.
  intros Ht. unfold turn. cbn [buffer outputBuffer].
  rewrite indexOf_notin by assumption. reflexivity.
Qed.

Lemma text_before t s out :
  (if 0 <? length t then out ++ Js.slice 0 (length t) (t ++ s) else out)
  = out ++ t.
Proof.
  destruct t as [|x t]; [simpl; now rewrite app_nil_r|].
  rewrite slice_prefix. reflexivity.
Qed.

Lemma turn_partial t r out :
  ~ In ESC t ->
  Js.startsWith (ESC :: r) OSC633_START = false ->
  isPartialOSC633Start (ESC :: r) = true ->
  turn (mkScan (t ++ ESC :: r) out) = Break (mkScan (ESC :: r) (out ++ t)).
Proof.
  intros Ht Hstart Hpart. unfold turn. cbn [buffer outputBuffer].
  rewrite indexOf_found by assumption.
  rewrite sliceFrom_app, Hstart, Hpart, text_before. reflexivity.
Qed.

Lemma turn_stray t r out :
  ~ In ESC t ->
  Js.startsWith (ESC :: r) OSC633_START = false ->
  isPartialOSC633Start (ESC :: r) = false ->
  turn (mkScan (t ++ ESC :: r) out)
  = Continue [] (mkScan r (out ++ t ++ [ESC])).
Proof.
  intros Ht Hstart Hpart. unfold turn. cbn [buffer outputBuffer].
  rewrite indexOf_found by assumption.
  rewrite sliceFrom_app, Hstart, Hpart. cbn [negb].
  replace (t ++ ESC :: r) with ((t ++ [ESC]) ++ r)
    by (rewrite <- app_assoc; reflexivity).
  replace (length t + 1) with (length (t ++ [ESC]))
    by (rewrite length_app; reflexivity).
  rewrite sliceFrom_app, slice_prefix. reflexivity.
Qed.

Lemma indexOfFrom_start t body :
  ~ In ST body ->
  Js.indexOfFrom ST (t ++ OSC633_START ++ body) (length t) = None.
Proof.
  intros Hb. unfold Js.indexOfFrom.
  fold (Js.sliceFrom (length t) (t ++ OSC633_START ++ body)).
  rewrite sliceFrom_app, indexOf_notin; [reflexivity|].
  rewrite in_app_iff. intros [H|H]; [exact (start_no_ST H) | auto].
Qed.

Lemma indexOfFrom_terminator t body rest :
  ~ In ST body ->
  Js.indexOfFrom ST (t ++ OSC633_START ++ body ++ ST :: rest) (length t)
  = Some (length (t ++ OSC633_START ++ body)).
Proof.
  intros Hb. unfold Js.indexOfFrom.
  fold (Js.sliceFrom (length t) (t ++ OSC633_START ++ body ++ ST :: rest)).
  rewrite sliceFrom_app, app_assoc, indexOf_found.
  - cbn [option_map]. now rewrite !length_app.
  - rewrite in_app_iff. intros [H|H]; [exact (start_no_ST H) | auto].
Qed.

Lemma turn_open t body out :
  ~ In ESC t -> ~ In ST body ->
  turn (mkScan (t ++ OSC633_START ++ body) out)
  = Break (mkScan (OSC633_START ++ body) (out ++ t)).
Proof.
  intros Ht Hb. unfold turn. cbn [buffer outputBuffer].
  rewrite indexOf_start by assumption.
  rewrite sliceFrom_app, startsWith_app. cbn [negb].
  rewrite indexOfFrom_start by assumption.
  rewrite text_before. reflexivity.
Qed.

Lemma turn_closed t body rest out :
  ~ In ESC t -> ~ In ST body ->
  turn (mkScan (t ++ OSC633_START ++ body ++ ST :: rest) out)
  = Continue (flushed (out ++ t) ++ [parseSequence body])
      (mkScan rest []).
Proof.
  intros Ht Hb. unfold turn. cbn [buffer outputBuffer].
  rewrite indexOf_start by assumption.
  rewrite sliceFrom_app, startsWith_app. cbn [negb].
  rewrite indexOfFrom_terminator by assumption.
  rewrite text_before.
  replace (Js.slice (length t + length OSC633_START)
             (length (t ++ OSC633_START ++ body))
             (t ++ OSC633_START ++ body ++ ST :: rest)) with body.
  2:{ replace (t ++ OSC633_START ++ body ++ ST :: rest)
        with ((t ++ OSC633_START) ++ body ++ ST :: rest)
        by now rewrite <- app_assoc.
      replace (length t + length OSC633_START)
        with (length (t ++ OSC633_START)) by now rewrite length_app.
      replace (length (t ++ OSC633_START ++ body))
        with (length (t ++ OSC633_START) + length body)
        by (rewrite !length_app; lia).
      now rewrite slice_middle. }
  replace (Js.sliceFrom (length (t ++ OSC633_START ++ body) + 1)
             (t ++ OSC633_START ++ body ++ ST :: rest)) with rest.
  2:{ replace (t ++ OSC633_START ++ body ++ ST :: rest)
        with ((t ++ OSC633_START ++ body ++ [ST]) ++ rest)
        by now rewrite <- !app_assoc.
      replace (length (t ++ OSC633_START ++ body) + 1)
        with (length (t ++ OSC633_START ++ body ++ [ST]))
        by (rewrite !length_app; simpl; lia).
      now rewrite sliceFrom_app. }
  unfold flushed. destruct (out ++ t); reflexivity.
Qed.

End Turn.

(** ** The loop *)

Section Loop.

Implicit Types (s : Scan) (t r body rest out : str).

Lemma turn_shortens s ys s' :
  turn s = Continue ys s' -> length s'.(buffer) < length s.(buffer).
Proof.
  destruct s as [buf out]. cbn [buffer].
  destruct (form_of buf) as [t Ht|t r Ht Hs Hp|t r Ht Hs Hp
                            |t body Ht Hb|t body rest Ht Hb]; intros H.
  - rewrite turn_text in H by assumption. discriminate.
  - rewrite turn_partial in H by assumption. discriminate.
  - rewrite turn_stray in H by assumption. inversion H; subst.
    cbn [buffer]. rewrite length_app. simpl. lia.
  - rewrite turn_open in H by assumption. discriminate.
  - rewrite turn_closed in H by assumption. inversion H; subst.
    cbn [buffer]. rewrite !length_app. simpl. lia.
Qed.

Lemma while_loop_unfold n s :
  while_loop (S n) s =
  if 0 <? length s.(buffer) then
    match turn s with
    | Break s' => ([], s')
    | Continue ys s' => after ys (while_loop n s')
    end
  else ([], s).
Proof.
  cbn [while_loop]. destruct (0 <? length (buffer s)); [|reflexivity].
  destruct (turn s); [reflexivity|].
  unfold after. destruct (while_loop n s0); reflexivity.
Qed.

(** Fuel beyond the length of the buffer changes nothing. *)
Lemma while_loop_fuel n m s :
  length s.(buffer) <= n -> length s.(buffer) <= m ->
  while_loop n s = while_loop m s.
Proof.
  revert m s; induction n as [|n IH]; intros m s Hn Hm.
  - destruct s as [[|x buf] out]; [|simpl in Hn; lia].
    destruct m; reflexivity.
  - destruct m as [|m].
    + destruct s as [[|x buf] out]; [|simpl in Hm; lia]. reflexivity.
    + rewrite !while_loop_unfold.
      destruct (0 <? length (buffer s)); [|reflexivity].
      destruct (turn s) as [s'|ys s'] eqn:Ht; [reflexivity|].
      apply turn_shortens in Ht. rewrite (IH m s') by lia. reflexivity.
Qed.

Lemma scan_nil out : scan (mkScan [] out) = ([], mkScan [] out).
Proof. reflexivity. Qed.

Lemma scan_break s s' :
  s.(buffer) <> [] -> turn s = Break s' -> scan s = ([], s').
Proof.
  intros Hne Ht. unfold scan.
  destruct s as [[|x buf] out]; [now elim Hne|].
  cbn [buffer length]. rewrite while_loop_unfold, Ht. reflexivity.
Qed.

Lemma scan_continue s ys s' :
  turn s = Continue ys s' -> scan s = after ys (scan s').
Proof.
  intros Ht. pose proof (turn_shortens _ _ _ Ht) as Hlt. unfold scan.
  destruct (length (buffer s)) as [|n] eqn:Hn; [lia|].
  rewrite while_loop_unfold, Hn, Ht. cbn [Nat.ltb Nat.leb].
  rewrite (while_loop_fuel n (length (buffer s'))) by lia. reflexivity.
Qed.

(** The fuelled loop computes what the unbounded loop does. *)
Lemma while_loop_run s : Run s (fst (scan s)) (snd (scan s)).
Proof.
  remember (length s.(buffer)) as n eqn:Hn.
  revert s Hn; induction n as [n IH] using lt_wf_ind; intros s Hn.
  destruct (buffer s) as [|x buf] eqn:Hbuf.
  - destruct s as [b out]; cbn [buffer] in Hbuf; subst b.
    rewrite scan_nil. now apply RunDone.
  - assert (Hne : buffer s <> []) by (rewrite Hbuf; discriminate).
    destruct (turn s) as [s'|ys s'] eqn:Ht.
    + rewrite (scan_break _ _ Hne Ht). now apply RunBreak.
    + rewrite (scan_continue _ _ _ Ht). cbn [after fst snd].
      apply RunContinue with (s' := s'); auto.
      apply (IH (length (buffer s'))); [|reflexivity].
      apply turn_shortens in Ht. rewrite Hbuf in Ht. lia.
Qed.

Lemma Run_deterministic s ys1 s1 ys2 s2 :
  Run s ys1 s1 -> Run s ys2 s2 -> ys1 = ys2 /\ s1 = s2.
Proof.
  intros H1; revert ys2 s2.
  induction H1 as [s Hs|s s' Hs Ht|s ys s' ys' s'' Hs Ht _ IH];
    intros ys2 s2 H2; inversion H2; subst; try congruence; auto.
  { split; congruence. }
  match goal with
  | Ha : turn s = Continue _ _, Hb : turn s = Continue _ _ |- _ =>
      rewrite Ha in Hb; inversion Hb; subst
  end.
  match goal with
  | Hr : Run _ _ s2 |- _ => destruct (IH _ _ Hr) as [-> ->]
  end.
  auto.
Qed.

(** The loop, by the form of the buffer. *)
Lemma scan_text t out :
  ~ In ESC t -> scan (mkScan t out) = ([], mkScan [] (out ++ t)).
Proof.
  intros Ht. destruct t as [|x t].
  - rewrite app_nil_r. apply scan_nil.
  - apply scan_break; [discriminate|]. now apply turn_text.
Qed.

Lemma scan_partial t r out :
  ~ In ESC t ->
  Js.startsWith (ESC :: r) OSC633_START = false ->
  isPartialOSC633Start (ESC :: r) = true ->
  scan (mkScan (t ++ ESC :: r) out) = ([], mkScan (ESC :: r) (out ++ t)).
Proof.
  intros. apply scan_break; [|now apply turn_partial].
  cbn [buffer]. destruct t; discriminate.
Qed.

Lemma scan_stray t r out :
  ~ In ESC t ->
  Js.startsWith (ESC :: r) OSC633_START = false ->
  isPartialOSC633Start (ESC :: r) = false ->
  scan (mkScan (t ++ ESC :: r) out) = scan (mkScan r (out ++ t ++ [ESC])).
Proof.
  intros. rewrite (scan_continue _ [] (mkScan r (out ++ t ++ [ESC])))
    by now apply turn_stray.
  unfold after. cbn [app]. now destruct (scan _).
Qed.

Lemma scan_open t body out :
  ~ In ESC t -> ~ In ST body ->
  scan (mkScan (t ++ OSC633_START ++ body) out)
  = ([], mkScan (OSC633_START ++ body) (out ++ t)).
Proof.
  intros. apply scan_break; [|now apply turn_open].
  cbn [buffer]. destruct t; discriminate.
Qed.

Lemma scan_closed t body rest out :
  ~ In ESC t -> ~ In ST body ->
  scan (mkScan (t ++ OSC633_START ++ body ++ ST :: rest) out)
  = after (flushed (out ++ t) ++ [parseSequence body])
      (scan (mkScan rest [])).
Proof. intros. apply scan_continue. now apply turn_closed. Qed.

End Loop.

(** ** Fragments and their concatenation *)

Section Fragments.

Implicit Types (s : Scan) (t r c body rest out : str).

Lemma after_nil (x : list Entry * Scan) : after [] x = x.
Proof. now destruct x. Qed.

Lemma after_app ys ys' (x : list Entry * Scan) :
  after (ys ++ ys') x = after ys (after ys' x).
Proof. unfold after. cbn [fst snd]. now rewrite app_assoc. Qed.

Lemma fst_after ys (x : list Entry * Scan) : fst (after ys x) = ys ++ fst x.
Proof. reflexivity. Qed.

Lemma snd_after ys (x : list Entry * Scan) : snd (after ys x) = snd x.
Proof. reflexivity. Qed.

Lemma isPartial_prefix r :
  isPartialOSC633Start r = Js.eqb r (firstn (length r) OSC633_START).
Proof.
  unfold isPartialOSC633Start, Js.slice. now rewrite Nat.sub_0_r.
Qed.

(** Two strings of which neither begins the other stay so when the
    first is continued. *)
Lemma diverged_app r p c :
  Js.startsWith r p = false ->
  Js.eqb r (firstn (length r) p) = false ->
  Js.startsWith (r ++ c) p = false
  /\ Js.eqb (r ++ c) (firstn (length (r ++ c)) p) = false.
Proof.
  revert p; induction r as [|x r IH]; intros [|y p]; simpl;
    try discriminate.
  destruct (Ascii.eqb x y); simpl; [apply IH | auto].
Qed.

Lemma stray_app r c :
  Js.startsWith (ESC :: r) OSC633_START = false ->
  isPartialOSC633Start (ESC :: r) = false ->
  Js.startsWith (ESC :: r ++ c) OSC633_START = false
  /\ isPartialOSC633Start (ESC :: r ++ c) = false.
Proof.
  rewrite !isPartial_prefix. intros Hs Hp.
  exact (diverged_app (ESC :: r) OSC633_START c Hs Hp).
Qed.

Lemma notin_app (x : ascii) t t' : ~ In x t -> ~ In x t' -> ~ In x (t ++ t').
Proof. rewrite in_app_iff. tauto. Qed.

(** Text without an escape character in front of the buffer goes to
    the output accumulator, whatever follows it. *)
Lemma scan_skip_text t c out :
  ~ In ESC t ->
  scan (mkScan (t ++ c) out) = scan (mkScan c (out ++ t)).
Proof.
  intros Ht.
  destruct (form_of c) as [t' Ht'|t' r Ht' Hs Hp|t' r Ht' Hs Hp
                          |t' body Ht' Hb|t' body rest Ht' Hb];
    rewrite ?(app_assoc t t').
  - rewrite !scan_text by auto using notin_app. now rewrite app_assoc.
  - rewrite !scan_partial by auto using notin_app. now rewrite app_assoc.
  - rewrite !scan_stray by auto using notin_app.
    now rewrite <- !app_assoc.
  - rewrite !scan_open by auto using notin_app. now rewrite app_assoc.
  - rewrite !scan_closed by auto using notin_app. now rewrite app_assoc.
Qed.

(** Running the loop on a buffer and then on what it left, continued
    by [c], is running it on the buffer continued by [c]. *)
Lemma scan_app buf c out :
  scan (mkScan (buf ++ c) out)
  = after (fst (scan (mkScan buf out)))
      (scan (mkScan (buffer (snd (scan (mkScan buf out))) ++ c)
                    (outputBuffer (snd (scan (mkScan buf out)))))).
Proof.
  remember (length buf) as n eqn:Hn.
  revert buf out Hn; induction n as [n IH] using lt_wf_ind.
  intros buf out Hn.
  destruct (form_of buf) as [t Ht|t r Ht Hs Hp|t r Ht Hs Hp
                            |t body Ht Hb|t body rest Ht Hb].
  - rewrite (scan_text t) by assumption. cbn [fst snd buffer outputBuffer].
    rewrite after_nil. cbn [app]. now apply scan_skip_text.
  - rewrite (scan_partial t r) by assumption.
    cbn [fst snd buffer outputBuffer]. rewrite after_nil, <- app_assoc.
    now apply scan_skip_text.
  - destruct (stray_app r c Hs Hp) as [Hs' Hp'].
    rewrite <- app_assoc. cbn [app].
    rewrite (scan_stray t (r ++ c)), (scan_stray t r) by assumption.
    apply (IH (length r)); [|reflexivity].
    subst n. rewrite length_app. simpl. lia.
  - rewrite (scan_open t body) by assumption.
    cbn [fst snd buffer outputBuffer]. rewrite after_nil, <- app_assoc.
    now apply scan_skip_text.
  - rewrite <- !app_assoc. cbn [app].
    rewrite (scan_closed t body (rest ++ c)), (scan_closed t body rest)
      by assumption.
    rewrite fst_after, !snd_after, (after_app _ (fst _)). apply f_equal.
    apply (IH (length rest)); [|reflexivity].
    subst n. rewrite !length_app. simpl. lia.
Qed.

Lemma settled_initial : settled initial.
Proof. reflexivity. Qed.

Lemma scan_settled s : settled (snd (scan s)).
Proof.
  destruct s as [buf out]. pose proof (scan_app buf [] out) as H.
  rewrite app_nil_r in H. unfold settled.
  destruct (scan (mkScan buf out)) as [ys [buf' out']] eqn:E.
  cbn [fst snd buffer outputBuffer] in *. rewrite app_nil_r in H.
  destruct (scan (mkScan buf' out')) as [ys' s'].
  unfold after in H. cbn [fst snd] in H. inversion H as [[Hys Hs]].
  rewrite <- (app_nil_r ys) in Hys at 1. apply app_inv_head in Hys.
  now subst.
Qed.

Lemma feed_scan s c :
  feed s c = scan (mkScan (s.(buffer) ++ c) s.(outputBuffer)).
Proof. reflexivity. Qed.

Lemma feed_settled s c : settled (snd (feed s c)).
Proof. rewrite feed_scan. apply scan_settled. Qed.

Lemma feedAll_cons s c cs :
  feedAll s (c :: cs) = after (fst (feed s c)) (feedAll (snd (feed s c)) cs).
Proof.
  cbn [feedAll]. destruct (feed s c) as [ys s']. cbn [fst snd].
  unfold after. now destruct (feedAll s' cs).
Qed.

(** Feeding the fragments one by one is running the loop once on
    their concatenation. *)
Lemma feedAll_scan s chunks :
  settled s ->
  feedAll s chunks
  = scan (mkScan (s.(buffer) ++ concat chunks) s.(outputBuffer)).
Proof.
  revert s; induction chunks as [|c cs IH]; intros s Hs.
  - cbn [concat feedAll]. rewrite app_nil_r. destruct s as [b o].
    symmetry. exact Hs.
  - rewrite feedAll_cons, (IH _ (feed_settled s c)).
    cbn [concat]. rewrite app_assoc, (scan_app (buffer s ++ c)).
    now rewrite feed_scan.
Qed.

Lemma parse_scan chunks :
  parse chunks
  = fst (scan (mkScan (concat chunks) []))
    ++ finish (snd (scan (mkScan (concat chunks) []))).
Proof.
  unfold parse. rewrite (feedAll_scan initial chunks settled_initial).
  cbn [initial buffer outputBuffer app]. now destruct (scan _).
Qed.

End Fragments.

(** ** What the loop leaves in the buffer *)

Section Pending.

Implicit Types (s : Scan) (t r c body rest out : str).

Lemma finish_flushed buf out : finish (mkScan buf out) = flushed (out ++ buf).
Proof.
  unfold finish, flushed. cbn [buffer outputBuffer].
  destruct out, buf; reflexivity.
Qed.

(** The proper prefixes of the sequence start. *)
Lemma partial_inv r :
  Js.startsWith (ESC :: r) OSC633_START = false ->
  isPartialOSC633Start (ESC :: r) = true ->
  In r [[]; lit "]"; lit "]6"; lit "]63"; lit "]633"].
Proof.
  intros Hs Hp. rewrite isPartial_prefix in Hp. apply eqb_eq in Hp.
  destruct r as [|a [|b [|c [|d [|e [|f r]]]]]];
    cbn in Hp; inversion Hp; subst; cbn; auto 10.
  cbn in Hs. discriminate.
Qed.

Lemma partial_no_ESC r :
  Js.startsWith (ESC :: r) OSC633_START = false ->
  isPartialOSC633Start (ESC :: r) = true ->
  ~ In ESC r.
Proof.
  intros Hs Hp. pose proof (partial_inv r Hs Hp) as H.
  cbn [In] in H. intuition subst; cbn in *; intuition discriminate.
Qed.

(** A proper prefix of the sequence start that is followed by an
    escape character does not begin a sequence. *)
Lemma partial_then_ESC r c :
  Js.startsWith (ESC :: r) OSC633_START = false ->
  isPartialOSC633Start (ESC :: r) = true ->
  Js.startsWith (ESC :: r ++ ESC :: c) OSC633_START = false
  /\ isPartialOSC633Start (ESC :: r ++ ESC :: c) = false.
Proof.
  intros Hs Hp. pose proof (partial_inv r Hs Hp) as H.
  rewrite isPartial_prefix.
  cbn [In] in H. intuition subst; cbn; auto.
Qed.

(** The buffer that the loop leaves is the end of the buffer it
    started from. *)
Lemma scan_suffix s :
  exists u, s.(buffer) = u ++ buffer (snd (scan s)).
Proof.
  destruct s as [buf out]. cbn [buffer].
  remember (length buf) as n eqn:Hn.
  revert buf out Hn; induction n as [n IH] using lt_wf_ind.
  intros buf out Hn.
  destruct (form_of buf) as [t Ht|t r Ht Hs Hp|t r Ht Hs Hp
                            |t body Ht Hb|t body rest Ht Hb].
  - rewrite scan_text by assumption. exists t. cbn. now rewrite app_nil_r.
  - rewrite scan_partial by assumption. now exists t.
  - rewrite scan_stray by assumption.
    destruct (IH (length r)) with (buf := r) (out := out ++ t ++ [ESC])
      as [u Hu]; [subst n; rewrite length_app; simpl; lia|reflexivity|].
    exists (t ++ ESC :: u). rewrite <- app_assoc. cbn [app].
    now rewrite <- Hu.
  - rewrite scan_open by assumption. now exists t.
  - rewrite scan_closed, snd_after by assumption.
    destruct (IH (length rest)) with (buf := rest) (out := @nil ascii)
      as [u Hu]; [subst n; rewrite !length_app; simpl; lia|reflexivity|].
    exists (t ++ OSC633_START ++ body ++ ST :: u).
    rewrite <- !app_assoc. cbn [app]. now rewrite <- Hu.
Qed.

(** A state that the loop leaves as it is has an empty buffer, or a
    proper prefix of the sequence start, or a sequence that has no
    terminator yet. *)
Lemma settled_forms buf out :
  settled (mkScan buf out) ->
  buf = []
  \/ (exists r, buf = ESC :: r
                /\ Js.startsWith (ESC :: r) OSC633_START = false
                /\ isPartialOSC633Start (ESC :: r) = true)
  \/ (exists body, buf = OSC633_START ++ body /\ ~ In ST body).
Proof.
  unfold settled.
  destruct (form_of buf) as [t Ht|t r Ht Hs Hp|t r Ht Hs Hp
                            |t body Ht Hb|t body rest Ht Hb]; intros H.
  - rewrite scan_text in H by assumption. inversion H; auto.
  - rewrite scan_partial in H by assumption. inversion H as [[Hb Ho]].
    assert (t = []) as ->.
    { apply (f_equal (@length ascii)) in Hb. rewrite length_app in Hb.
      destruct t; [reflexivity|simpl in Hb; lia]. }
    right; left. now exists r.
  - exfalso. rewrite scan_stray in H by assumption.
    destruct (scan_suffix (mkScan r (out ++ t ++ [ESC]))) as [u Hu].
    rewrite H in Hu. cbn [buffer snd] in Hu.
    apply (f_equal (@length ascii)) in Hu. rewrite !length_app in Hu.
    simpl in Hu. lia.
  - rewrite scan_open in H by assumption. inversion H as [[Hb' Ho]].
    assert (t = []) as ->.
    { apply (f_equal (@length ascii)) in Hb'. rewrite !length_app in Hb'.
      destruct t; [reflexivity|simpl in Hb'; lia]. }
    right; right. now exists body.
  - exfalso. rewrite scan_closed in H by assumption.
    unfold after in H. inversion H as [[Hys Hs]].
    destruct (flushed (out ++ t)); discriminate.
Qed.

End Pending.

(** ** Properties of [parse] *)

Section RoundTrip.

Implicit Types (s : Scan) (t r c body rest out : str).

Lemma wireText_body body : wireText body = OSC633_START ++ body ++ [ST].
Proof. unfold wireText. now rewrite join_split. Qed.

Lemma parsePropertyUpdate_cases ps :
  (exists name value, parsePropertyUpdate ps = PropertyUpdate name value)
  \/ (exists msg, parsePropertyUpdate ps = newInvalid ps msg).
Proof.
  unfold parsePropertyUpdate.
  destruct (nth_error ps 1) as [pp|]; [|right; eauto].
  destruct (Js.indexOf EQUALS pp) as [i|]; [|right; eauto].
  destruct (Js.eqb _ _); [right; eauto | left; eauto].
Qed.

(** An [Invalid] entry for a sequence carries the text of the
    sequence. *)
Lemma parseSequence_invalid body info :
  parseSequence body = Invalid info -> info.(sequence) = wireText body.
Proof.
  unfold parseSequence, wireText.
  set (ps := Js.split SEMI body).
  assert (Hnew : forall msg, newInvalid ps msg = Invalid info ->
                   sequence info = OSC633_START ++ Js.join SEMI ps ++ [ST]).
  { unfold newInvalid. intros msg H. now inversion H. }
  destruct (nth_error ps 0) as [type|]; [|apply Hnew].
  destruct (Js.eqb type A); [discriminate|].
  destruct (Js.eqb type B); [discriminate|].
  destruct (Js.eqb type C); [discriminate|].
  destruct (Js.eqb type D); [unfold parseCommandEnd; discriminate|].
  destruct (Js.eqb type E).
  { unfold parseCommandLine. destruct (nth_error ps 1); [discriminate|].
    apply Hnew. }
  destruct (Js.eqb type P); [|apply Hnew].
  destruct (parsePropertyUpdate_cases ps) as [(n & v & ->)|(msg & ->)];
    [discriminate|apply Hnew].
Qed.

Lemma parseSequence_not_output body : isOutput (parseSequence body) = false.
Proof.
  unfold parseSequence.
  destruct (nth_error (Js.split SEMI body) 0) as [type|]; [|reflexivity].
  destruct (Js.eqb type A); [reflexivity|].
  destruct (Js.eqb type B); [reflexivity|].
  destruct (Js.eqb type C); [reflexivity|].
  destruct (Js.eqb type D); [reflexivity|].
  destruct (Js.eqb type E).
  { unfold parseCommandLine. now destruct (nth_error _ 1). }
  destruct (Js.eqb type P); [|reflexivity].
  destruct (parsePropertyUpdate_cases (Js.split SEMI body))
    as [(n & v & ->)|(msg & ->)]; reflexivity.
Qed.

End RoundTrip.

Lemma concat_singletons (text : str) : concat (map (fun x => [x]) text) = text.
Proof. induction text as [|x l IH]; cbn; [reflexivity | now f_equal]. Qed.

(** C2.  Chunk invariance: two sequences of fragments with the same
    concatenation yield the same entries; in particular the entries are
    those for the single fragment that holds the whole text and those
    for the text cut into fragments of one character. *)
Theorem chunk_invariance (chunks chunks' : list str) :
  concat chunks = concat chunks' ->
  parse chunks = parse chunks'
  /\ parse chunks = parse [concat chunks]
  /\ parse chunks = parse (map (fun x => [x]) (concat chunks)).
Proof.
  intros H. rewrite !parse_scan. cbn [concat]. rewrite app_nil_r, H.
  repeat split. now rewrite concat_singletons.
Qed.

Lemma chunk_invariance_witness :
  concat [lit "before " ++ [ESC]; lit "]633"; lit ";A" ++ [ST] ++ lit " after"]
  = concat [lit "before "; ESC :: lit "]633;A" ++ [ST]; lit " after"]
  /\ parse [lit "before " ++ [ESC]; lit "]633"; lit ";A" ++ [ST] ++ lit " after"]
     = parse [lit "before "; ESC :: lit "]633;A" ++ [ST]; lit " after"].
Proof.
  split; [reflexivity|].
  apply (chunk_invariance
           [lit "before " ++ [ESC]; lit "]633"; lit ";A" ++ [ST] ++ lit " after"]
           [lit "before "; ESC :: lit "]633;A" ++ [ST]; lit " after"]).
  reflexivity.
Defined.

(** ** Output entries *)

Section Outputs.

Implicit Types (s : Scan) (t r c body rest out : str).

Lemma scan_groups buf out : Groups (fst (scan (mkScan buf out))).
Proof.
  remember (length buf) as n eqn:Hn.
  revert buf out Hn; induction n as [n IH] using lt_wf_ind.
  intros buf out Hn.
  destruct (form_of buf) as [t Ht|t r Ht Hs Hp|t r Ht Hs Hp
                            |t body Ht Hb|t body rest Ht Hb].
  - rewrite scan_text by assumption. constructor.
  - rewrite scan_partial by assumption. constructor.
  - rewrite scan_stray by assumption.
    apply (IH (length r)); [|reflexivity].
    subst n. rewrite length_app. simpl. lia.
  - rewrite scan_open by assumption. constructor.
  - rewrite scan_closed, fst_after by assumption.
    assert (Hrest : Groups (fst (scan (mkScan rest [])))).
    { apply (IH (length rest)); [|reflexivity].
      subst n. rewrite !length_app. simpl. lia. }
    pose proof (parseSequence_not_output body) as Hseq.
    unfold flushed. destruct (out ++ t) as [|x o]; cbn.
    + now apply GroupsSeq.
    + apply GroupsOut; [discriminate|assumption|assumption].
Qed.

Lemma groups_not_last ys :
  Groups ys -> forall ys' value, ys <> ys' ++ [Output value].
Proof.
  induction 1 as [|e ys He _ IH|v e ys Hv He _ IH]; intros ys' value Heq.
  - destruct ys'; discriminate.
  - destruct ys' as [|e' ys']; cbn in Heq; inversion Heq; subst.
    + discriminate.
    + now apply (IH ys' value).
  - destruct ys' as [|e1 [|e2 ys']]; cbn in Heq; inversion Heq; subst.
    + discriminate.
    + now apply (IH ys' value).
Qed.

Lemma groups_outputs ys tail :
  Groups ys ->
  tail = [] \/ (exists value, value <> [] /\ tail = [Output value]) ->
  (forall value, In (Output value) (ys ++ tail) -> value <> [])
  /\ (forall pre v1 v2 post,
         ys ++ tail <> pre ++ Output v1 :: Output v2 :: post).
Proof.
  intros Hg Htail.
  induction Hg as [|e ys He _ [IH1 IH2]|v e ys Hv He _ [IH1 IH2]]; split.
  - destruct Htail as [->|(v & Hv & ->)]; cbn; [tauto|].
    intros value [H|[]]. now inversion H; subst.
  - intros pre v1 v2 post Heq.
    destruct Htail as [->|(v & Hv & ->)];
      destruct pre as [|? [|? ?]]; discriminate.
  - cbn. intros value [H|H]; [subst; discriminate | now apply IH1].
  - intros [|p pre] v1 v2 post Heq; cbn in Heq; inversion Heq; subst.
    + discriminate.
    + now apply (IH2 pre v1 v2 post).
  - cbn. intros value [H|[H|H]].
    + now inversion H; subst.
    + subst; discriminate.
    + now apply IH1.
  - intros [|p [|q pre]] v1 v2 post Heq; cbn in Heq; inversion Heq; subst.
    + discriminate.
    + discriminate.
    + now apply (IH2 pre v1 v2 post).
Qed.

Lemma finish_tail s :
  finish s = []
  \/ (exists value, value <> [] /\ finish s = [Output value]).
Proof.
  destruct s as [buf out]. rewrite finish_flushed. unfold flushed.
  destruct (out ++ buf) as [|x o]; cbn; [now left|right].
  exists (x :: o). split; [discriminate|reflexivity].
Qed.

End Outputs.

(** C7.  For every sequence of fragments, every [Output] that [parse]
    yields has a non-empty value, and no two [Output] entries are next
    to each other in what it yields. *)
Theorem outputs_coalesced (chunks : list str) :
  (forall value, In (Output value) (parse chunks) -> value <> [])
  /\ (forall pre v1 v2 post,
         parse chunks <> pre ++ Output v1 :: Output v2 :: post).
Proof.
  rewrite parse_scan.
  apply groups_outputs; [apply scan_groups | apply finish_tail].
Qed.

Lemma outputs_coalesced_witness :
  In (Output (lit "before"))
     (parse [lit "before"; OSC633_START ++ lit "X" ++ [ST]; lit "after"])
  /\ lit "before" <> [].
Proof.
  assert (H : In (Output (lit "before"))
                (parse [lit "before"; OSC633_START ++ lit "X" ++ [ST];
                        lit "after"])) by (vm_compute; auto).
  split; [exact H|].
  exact (proj1 (outputs_coalesced
                  [lit "before"; OSC633_START ++ lit "X" ++ [ST]; lit "after"])
               (lit "before") H).
Defined.

(** ** The end of the source and malformed sequences *)

Section EndOfSource.

Implicit Types (s : Scan) (t r c body rest out : str).

Lemma scan_open0 body out :
  ~ In ST body ->
  scan (mkScan (OSC633_START ++ body) out)
  = ([], mkScan (OSC633_START ++ body) out).
Proof.
  intros Hb. pose proof (scan_open [] body out (@in_nil _ _) Hb) as H.
  cbn [app] in H. now rewrite app_nil_r in H.
Qed.

Lemma scan_closed0 body rest out :
  ~ In ST body ->
  scan (mkScan (OSC633_START ++ body ++ ST :: rest) out)
  = after (flushed out ++ [parseSequence body]) (scan (mkScan rest [])).
Proof.
  intros Hb.
  pose proof (scan_closed [] body rest out (@in_nil _ _) Hb) as H.
  cbn [app] in H. now rewrite app_nil_r in H.
Qed.

Lemma scan_stray0 r out :
  Js.startsWith (ESC :: r) OSC633_START = false ->
  isPartialOSC633Start (ESC :: r) = false ->
  scan (mkScan (ESC :: r) out) = scan (mkScan r (out ++ [ESC])).
Proof.
  intros Hs Hp. exact (scan_stray [] r out (@in_nil _ _) Hs Hp).
Qed.

(** A sequence start that arrives after a buffer in which no
    sequence is open: the buffer goes to the output accumulator. *)
Lemma scan_pending_start buf out c :
  settled (mkScan buf out) ->
  Js.startsWith buf OSC633_START = false ->
  scan (mkScan (buf ++ OSC633_START ++ c) out)
  = scan (mkScan (OSC633_START ++ c) (out ++ buf)).
Proof.
  intros Hset Hstart.
  destruct (settled_forms _ _ Hset)
    as [->|[(r & -> & Hs & Hp)|(body & -> & Hb)]].
  - now rewrite app_nil_r.
  - change (OSC633_START ++ c) with (ESC :: (lit "]633;" ++ c)).
    destruct (partial_then_ESC r (lit "]633;" ++ c) Hs Hp) as [Hs' Hp'].
    cbn [app]. rewrite scan_stray0 by assumption.
    rewrite scan_skip_text by now apply partial_no_ESC.
    now rewrite <- !app_assoc.
  - now rewrite startsWith_app in Hstart.
Qed.

(** An unterminated sequence at the end of the text stays in the
    accumulator and the buffer. *)
Lemma scan_unterminated buf out body :
  settled (mkScan buf out) ->
  ~ In ST body ->
  exists value,
    fst (scan (mkScan (buf ++ OSC633_START ++ body) out)) = []
    /\ outputBuffer (snd (scan (mkScan (buf ++ OSC633_START ++ body) out)))
       ++ buffer (snd (scan (mkScan (buf ++ OSC633_START ++ body) out)))
       = value ++ OSC633_START ++ body.
Proof.
  intros Hset Hb.
  destruct (Js.startsWith buf OSC633_START) eqn:Hstart.
  - apply startsWith_true in Hstart as [b ->].
    destruct (settled_forms _ _ Hset)
      as [H|[(r & H & Hs & Hp)|(body' & H & Hb')]].
    + discriminate.
    + exfalso. rewrite <- H, startsWith_app in Hs. discriminate.
    + apply app_inv_head in H. subst body'.
      exists (out ++ OSC633_START ++ b).
      rewrite <- app_assoc, scan_open0.
      * cbn [fst snd buffer outputBuffer]. now rewrite <- !app_assoc.
      * apply notin_app; [assumption|].
        apply notin_app; [apply start_no_ST | assumption].
  - rewrite scan_pending_start, scan_open0 by assumption.
    exists (out ++ buf). cbn [fst snd buffer outputBuffer]. auto.
Qed.

End EndOfSource.

Lemma emitted_residue (chunks : list str) :
  emitted chunks = fst (scan (mkScan (concat chunks) []))
  /\ residue chunks = snd (scan (mkScan (concat chunks) [])).
Proof.
  unfold emitted, residue.
  now rewrite (feedAll_scan initial chunks settled_initial).
Qed.

(** X20. A text in which every sequence start is followed by a terminator
    leaves no sequence open. *)
Lemma no_open_sequence (text : str) :
  (forall before body, text = before ++ OSC633_START ++ body -> In ST body) ->
  Js.startsWith (residue [text]).(buffer) OSC633_START = false.
Proof.
  intros Hclosed. destruct (emitted_residue [text]) as [_ ->].
  cbn [concat]. rewrite app_nil_r.
  pose proof (scan_settled (mkScan text [])) as Hset.
  destruct (scan_suffix (mkScan text [])) as [before Hsuffix].
  cbn [buffer] in Hsuffix.
  destruct (scan (mkScan text [])) as [ys [buf out]].
  cbn [snd buffer] in *.
  destruct (settled_forms _ _ Hset)
    as [->|[(r & -> & Hs & Hp)|(body & -> & Hb)]];
    [reflexivity|assumption|].
  exfalso. exact (Hb (Hclosed before body Hsuffix)).
Qed.

Lemma parse_emitted (chunks : list str) :
  parse chunks = emitted chunks ++ finish (residue chunks).
Proof.
  unfold parse, emitted, residue. now destruct (feedAll initial chunks).
Qed.

(** C6.  Completion.  When the source is exhausted and the output
    accumulator or the buffer holds text, [parse] yields, after what it
    has yielded so far, exactly one [Output] whose value is the
    accumulator followed by the buffer; when both are empty it yields
    nothing more.  What it has yielded so far does not end with an
    [Output].  In particular, when the text ends with a sequence start
    and a body without terminator, that sequence adds no entry to those
    of the text before it and is the end of the value of the final
    [Output]. *)
Theorem completion (chunks : list str) :
  ((residue chunks).(outputBuffer) <> [] \/ (residue chunks).(buffer) <> [] ->
   parse chunks
   = emitted chunks
     ++ [Output ((residue chunks).(outputBuffer) ++ (residue chunks).(buffer))])
  /\ ((residue chunks).(outputBuffer) = [] /\ (residue chunks).(buffer) = [] ->
      parse chunks = emitted chunks)
  /\ (forall ys value, emitted chunks <> ys ++ [Output value])
  /\ (forall text body,
         concat chunks = text ++ OSC633_START ++ body ->
         ~ In ST body ->
         exists value,
           emitted chunks = emitted [text]
           /\ parse chunks
              = emitted chunks ++ [Output (value ++ OSC633_START ++ body)]).
Proof.
  rewrite parse_emitted. repeat split.
  - destruct (residue chunks) as [buf out]. cbn [buffer outputBuffer].
    rewrite finish_flushed. unfold flushed.
    intros [H|H]; destruct out, buf; try congruence; reflexivity.
  - intros [Ho Hb]. destruct (residue chunks) as [buf out].
    cbn [buffer outputBuffer] in *. subst. now rewrite app_nil_r.
  - destruct (emitted_residue chunks) as [-> _].
    apply groups_not_last, scan_groups.
  - intros text body Htext Hb.
    destruct (emitted_residue chunks) as [He Hr]. rewrite He, Hr, Htext.
    destruct (emitted_residue [text]) as [-> _].
    cbn [concat]. rewrite (app_nil_r text).
    rewrite scan_app, fst_after, snd_after.
    pose proof (scan_settled (mkScan text [])) as Hset.
    destruct (scan (mkScan text [])) as [ys [buf out]].
    cbn [fst snd buffer outputBuffer] in *.
    destruct (scan_unterminated buf out body Hset Hb) as (value & Hys & Hv).
    exists value. rewrite Hys, app_nil_r. split; [reflexivity|].
    destruct (scan (mkScan (buf ++ OSC633_START ++ body) out))
      as [ys' [buf' out']].
    cbn [fst snd buffer outputBuffer] in *.
    rewrite finish_flushed, Hv. unfold flushed.
    destruct (value ++ OSC633_START ++ body) eqn:E; [|reflexivity].
    destruct value; discriminate.
Qed.

Lemma completion_witness :
  concat [lit "$ "; OSC633_START ++ lit "E;ls"]
  = lit "$ " ++ OSC633_START ++ lit "E;ls"
  /\ ~ In ST (lit "E;ls")
  /\ exists value,
       emitted [lit "$ "; OSC633_START ++ lit "E;ls"] = emitted [lit "$ "]
       /\ parse [lit "$ "; OSC633_START ++ lit "E;ls"]
          = emitted [lit "$ "; OSC633_START ++ lit "E;ls"]
            ++ [Output (value ++ OSC633_START ++ lit "E;ls")].
Proof.
  assert (Hb : ~ In ST (lit "E;ls")) by (vm_compute; intuition discriminate).
  split; [reflexivity|]. split; [exact Hb|].
  exact (proj2 (proj2 (proj2
           (completion [lit "$ "; OSC633_START ++ lit "E;ls"])))
           (lit "$ ") (lit "E;ls") eq_refl Hb).
Defined.

(** C8 as stated fails: a malformed sequence that follows a sequence
    start without terminator is part of the body of that sequence, and
    no [Invalid] is yielded for it; and a body that contains the
    terminator ends at it. *)
Lemma malformed_inside_open_sequence :
  isInvalid (parseSequence (lit "X")) = true
  /\ parse [(OSC633_START ++ lit "A;") ++ OSC633_START ++ lit "X" ++ [ST]]
     = [PromptStart]
  /\ ~ ResumesAfter (OSC633_START ++ lit "A;") (lit "X") []
  /\ isInvalid (parseSequence (lit "X" ++ ST :: lit "Y")) = true
  /\ ~ ResumesAfter [] (lit "X" ++ ST :: lit "Y") [].
Proof.
  split; [reflexivity|]. split; [vm_compute; reflexivity|].
  split; [unfold ResumesAfter; vm_compute; discriminate|].
  split; [reflexivity|].
  unfold ResumesAfter. vm_compute. discriminate.
Qed.

(** C8, amended.  When the text is [prefixText], a sequence start, a
    [body] without terminator whose decoding fails, the terminator and
    [rest], and scanning [prefixText] alone leaves no sequence open (the
    buffer that it leaves does not begin with the sequence start), then
    [parse] yields the entries for [prefixText], one [Invalid] whose
    [sequence] is the text of the malformed sequence, and the entries
    for [rest] alone. *)
Theorem invalid_resumes (chunks : list str) (prefixText body rest : str) :
  concat chunks = prefixText ++ OSC633_START ++ body ++ ST :: rest ->
  isInvalid (parseSequence body) = true ->
  ~ In ST body ->
  Js.startsWith (residue [prefixText]).(buffer) OSC633_START = false ->
  exists info,
    parseSequence body = Invalid info
    /\ info.(sequence) = OSC633_START ++ body ++ [ST]
    /\ parse chunks = parse [prefixText] ++ [Invalid info] ++ parse [rest].
Proof.
  intros Htext Hinv Hb Hopen.
  destruct (parseSequence body) as [| | | | | | |info] eqn:Hseq;
    try discriminate.
  exists info. split; [reflexivity|]. split.
  { rewrite (parseSequence_invalid _ _ Hseq). apply wireText_body. }
  rewrite !parse_scan, Htext. cbn [concat]. rewrite !app_nil_r.
  destruct (emitted_residue [prefixText]) as [_ Hr]. rewrite Hr in Hopen.
  cbn [concat] in Hopen. rewrite app_nil_r in Hopen.
  rewrite scan_app, fst_after, snd_after.
  pose proof (scan_settled (mkScan prefixText [])) as Hset.
  destruct (scan (mkScan prefixText [])) as [ys [buf out]].
  cbn [fst snd buffer outputBuffer] in *.
  rewrite scan_pending_start, scan_closed0 by assumption.
  rewrite fst_after, snd_after, Hseq, finish_flushed.
  now rewrite <- !app_assoc.
Qed.

Lemma invalid_resumes_witness :
  exists info,
    parseSequence (lit "X;something") = Invalid info
    /\ info.(sequence) = OSC633_START ++ lit "X;something" ++ [ST]
    /\ parse [lit "before"; OSC633_START ++ lit "X;something" ++ [ST];
              lit "after"]
       = parse [lit "before"] ++ [Invalid info] ++ parse [lit "after"].
Proof.
  apply (invalid_resumes
           [lit "before"; OSC633_START ++ lit "X;something" ++ [ST];
            lit "after"]
           (lit "before") (lit "X;something") (lit "after")).
  - reflexivity.
  - reflexivity.
  - vm_compute. intuition discriminate.
  - reflexivity.
Defined.

(** ** Decoding by type *)

Section Decoding.

Implicit Types (body type name value : str) (rest more : list str).

Lemma parseSequence_parts body type rest :
  Js.split SEMI body = type :: rest ->
  parseSequence body =
    if Js.eqb type A then PromptStart
    else if Js.eqb type B then PromptEnd
    else if Js.eqb type C then CommandStart
    else if Js.eqb type D then parseCommandEnd (type :: rest)
    else if Js.eqb type E then parseCommandLine (type :: rest)
    else if Js.eqb type P then parsePropertyUpdate (type :: rest)
    else newInvalid (type :: rest) (lit "Unknown sequence type: " ++ type).
Proof. intros H. unfold parseSequence. now rewrite H. Qed.

Lemma newInvalid_parts body type rest msg :
  Js.split SEMI body = type :: rest ->
  newInvalid (type :: rest) msg
  = Invalid {| sequence := OSC633_START ++ body ++ [ST];
               oscType := type;
               parts := type :: rest;
               message := msg |}.
Proof.
  intros H. unfold newInvalid. rewrite <- H, join_split, H. reflexivity.
Qed.

Lemma indexOf_EQUALS name value :
  ~ In EQUALS name ->
  Js.indexOf EQUALS (name ++ EQUALS :: value) = Some (length name).
Proof. apply indexOf_found. Qed.

End Decoding.

(** C9.  A body whose first field is [A], [B] or [C] decodes to the
    entry without payload, whatever fields follow; one whose first
    field is [D] decodes to [CommandEnd] with the second field as it is,
    or without exit code when there is no second field; one whose first
    field is none of [A], [B], [C], [D], [E], [P] (the empty field
    included) decodes to [Invalid] with the reason
    [Unknown sequence type: ] followed by that field. *)
Theorem decode_by_type (body type : str) (rest : list str) :
  Js.split SEMI body = type :: rest ->
  (type = A -> parseSequence body = PromptStart)
  /\ (type = B -> parseSequence body = PromptEnd)
  /\ (type = C -> parseSequence body = CommandStart)
  /\ (type = D -> rest = [] -> parseSequence body = CommandEnd None)
  /\ (type = D -> forall exitCode more, rest = exitCode :: more ->
      parseSequence body = CommandEnd (Some exitCode))
  /\ (~ In type [A; B; C; D; E; P] ->
      parseSequence body
      = Invalid {| sequence := OSC633_START ++ body ++ [ST];
                   oscType := type;
                   parts := type :: rest;
                   message := lit "Unknown sequence type: " ++ type |}).
Proof.
  intros Hsplit. rewrite (parseSequence_parts _ _ _ Hsplit).
  repeat split.
  - now intros ->.
  - now intros ->.
  - now intros ->.
  - now intros -> ->.
  - now intros -> exitCode more ->.
  - intros Hother. cbn [In] in Hother.
    repeat match goal with
           | |- context [Js.eqb type ?k] =>
               let Heq := fresh "Heq" in
               destruct (Js.eqb type k) eqn:Heq;
               [apply eqb_eq in Heq; exfalso; intuition congruence
               |clear Heq]
           end.
    now apply newInvalid_parts.
Qed.

Lemma decode_by_type_witness :
  Js.split SEMI (lit "D;0") = lit "D" :: [lit "0"]
  /\ parseSequence (lit "D;0") = CommandEnd (Some (lit "0")).
Proof.
  split; [reflexivity|].
  exact (proj1 (proj2 (proj2 (proj2 (proj2
           (decode_by_type (lit "D;0") (lit "D") [lit "0"] eq_refl)))))
           eq_refl (lit "0") [] eq_refl).
Defined.





(** C10.  An empty field is a field: the sequence with body [E;] gives
    [CommandLine] with the empty command, the one with body [D;] gives
    [CommandEnd] with the empty exit code, and the one with body [P;]
    gives [Invalid] with reason [Invalid property format: missing '=']. *)
Theorem empty_field_is_present :
  parse [OSC633_START ++ lit "E;" ++ [ST]] = [CommandLine [] None]
  /\ parse [OSC633_START ++ lit "D;" ++ [ST]] = [CommandEnd (Some [])]
  /\ parse [OSC633_START ++ lit "P;" ++ [ST]]
     = [Invalid {| sequence := OSC633_START ++ lit "P;" ++ [ST];
                   oscType := P;
                   parts := [P; []];
                   message := lit "Invalid property format: missing '='" |}]
  /\ parseSequence (lit "E;") = CommandLine [] None
  /\ parseSequence (lit "D;") = CommandEnd (Some [])
  /\ parseSequence (lit "E") <> parseSequence (lit "E;")
  /\ parseSequence (lit "D") = CommandEnd None.
Proof. repeat split; try (vm_compute; reflexivity). vm_compute. discriminate. Qed.

(** ** Unescaping *)

Section Unescaping.

Implicit Types (s r pat rep : str) (x y : ascii).

Lemma replaceFrom_skip pat rep k s :
  Js.replaceFrom pat rep k s = Js.replaceAll pat rep (skipn k s).
Proof.
  revert k; induction s as [|x s IH]; intros [|k]; try reflexivity.
  cbn [Js.replaceFrom skipn]. apply IH.
Qed.

Lemma replaceAll_match y pat rep r :
  Js.replaceAll (y :: pat) rep ((y :: pat) ++ r)
  = rep ++ Js.replaceAll (y :: pat) rep r.
Proof.
  unfold Js.replaceAll at 1. cbn [app Js.replaceFrom].
  change (y :: pat ++ r) with ((y :: pat) ++ r).
  rewrite startsWith_app, replaceFrom_skip.
  replace (length (y :: pat) - 1) with (length pat) by (simpl; lia).
  fold (Js.sliceFrom (length pat) (pat ++ r)).
  now rewrite sliceFrom_app.
Qed.

Lemma replaceAll_other pat rep x s :
  Js.startsWith (x :: s) pat = false ->
  Js.replaceAll pat rep (x :: s) = x :: Js.replaceAll pat rep s.
Proof.
  intros H. unfold Js.replaceAll. cbn [Js.replaceFrom]. now rewrite H.
Qed.

Lemma unescapeFrom_skip k s :
  unescapeFrom k s = unescapeOnePass (skipn k s).
Proof.
  revert k; induction s as [|x s IH]; intros [|k]; try reflexivity.
  cbn [unescapeFrom skipn]. apply IH.
Qed.

Lemma includes_tail x s pat : includes (x :: s) pat = false ->
  Js.startsWith (x :: s) pat = false /\ includes s pat = false.
Proof. cbn [includes]. apply orb_false_iff. Qed.

Lemma includes_skipn k s pat :
  includes s pat = false -> includes (skipn k s) pat = false.
Proof.
  revert s; induction k as [|k IH]; intros [|x s] H; try assumption.
  cbn [skipn]. apply IH. now apply includes_tail in H.
Qed.

(** The first substitution does not change whether the text begins
    with a given text made of characters other than the backslash and
    the semicolon; nor does the second for characters other than
    the backslash and the newline. *)
Lemma startsWith_replaceAll pat rep_char q s :
  ~ In BACKSLASH q -> ~ In rep_char q ->
  Js.startsWith (Js.replaceAll (BACKSLASH :: pat) [rep_char] s) q
  = Js.startsWith s q.
Proof.
  revert s; induction q as [|y q IH]; intros s Hb Hr; [reflexivity|].
  destruct s as [|x s]; [reflexivity|].
  destruct (Js.startsWith (x :: s) (BACKSLASH :: pat)) eqn:Hm.
  - apply startsWith_true in Hm as [r Hr']. rewrite Hr'.
    rewrite replaceAll_match. cbn [app Js.startsWith].
    destruct (Ascii.eqb_spec rep_char y) as [->|_];
      [exfalso; apply Hr; now left|].
    destruct (Ascii.eqb_spec BACKSLASH y) as [<-|_];
      [exfalso; apply Hb; now left|reflexivity].
  - rewrite replaceAll_other by assumption. cbn [Js.startsWith].
    rewrite IH; [reflexivity| |]; intros Hin; [apply Hb|apply Hr];
      now right.
Qed.

End Unescaping.

Section Agreement.

Implicit Types (s r pat rep : str) (x y : ascii).

Lemma unescapeOnePass_semi r :
  unescapeOnePass (lit "\x3b" ++ r) = SEMI :: unescapeOnePass r.
Proof. reflexivity. Qed.

Lemma unescapeOnePass_newline r :
  unescapeOnePass (lit "\x0a" ++ r) = NEWLINE :: unescapeOnePass r.
Proof. reflexivity. Qed.

Lemma unescapeOnePass_backslash r :
  unescapeOnePass (lit "\\" ++ r) = BACKSLASH :: unescapeOnePass r.
Proof. reflexivity. Qed.

Lemma unescapeOnePass_other x s :
  Js.startsWith (x :: s) (lit "\x3b") = false ->
  Js.startsWith (x :: s) (lit "\x0a") = false ->
  Js.startsWith (x :: s) (lit "\\") = false ->
  unescapeOnePass (x :: s) = x :: unescapeOnePass s.
Proof.
  intros H1 H2 H3. unfold unescapeOnePass. cbn [unescapeFrom].
  now rewrite H1, H2, H3.
Qed.

Lemma startsWith_cons x s y pat :
  Js.startsWith (x :: s) (y :: pat) = Ascii.eqb x y && Js.startsWith s pat.
Proof. reflexivity. Qed.

Lemma head_backslash pat rep s :
  Js.startsWith s [BACKSLASH] = false ->
  Js.startsWith (Js.replaceAll (BACKSLASH :: pat) rep s) [BACKSLASH] = false.
Proof.
  destruct s as [|x s]; [reflexivity|]. cbn [Js.startsWith].
  rewrite andb_true_r. intros Hx.
  rewrite replaceAll_other by (cbn [Js.startsWith]; now rewrite Hx).
  cbn [Js.startsWith]. now rewrite Hx.
Qed.

Lemma unescapeValue_semi r :
  unescapeValue (lit "\x3b" ++ r) = SEMI :: unescapeValue r.
Proof.
  unfold unescapeValue.
  change (lit "\x3b") with (BACKSLASH :: lit "x3b").
  rewrite replaceAll_match. cbn [app].
  now rewrite !replaceAll_other by reflexivity.
Qed.

Lemma unescapeValue_newline r :
  unescapeValue (lit "\x0a" ++ r) = NEWLINE :: unescapeValue r.
Proof.
  unfold unescapeValue.
  change (lit "\x0a" ++ r)
    with (BACKSLASH :: "x"%char :: "0"%char :: "a"%char :: r).
  rewrite !(replaceAll_other (lit "\x3b")) by reflexivity.
  change (BACKSLASH :: "x"%char :: "0"%char :: "a"%char ::
            Js.replaceAll (lit "\x3b") [SEMI] r)
    with ((BACKSLASH :: lit "x0a") ++ Js.replaceAll (lit "\x3b") [SEMI] r).
  change (lit "\x0a") with (BACKSLASH :: lit "x0a").
  rewrite replaceAll_match. cbn [app].
  now rewrite replaceAll_other by reflexivity.
Qed.

Lemma unescapeValue_backslash r :
  Js.startsWith r (lit "x3b") = false ->
  Js.startsWith r (lit "x0a") = false ->
  unescapeValue (lit "\\" ++ r) = BACKSLASH :: unescapeValue r.
Proof.
  intros H3b H0a. unfold unescapeValue.
  change (lit "\\" ++ r) with (BACKSLASH :: BACKSLASH :: r).
  rewrite (replaceAll_other (lit "\x3b")) by reflexivity.
  rewrite (replaceAll_other (lit "\x3b"))
    by (change (lit "\x3b") with (BACKSLASH :: lit "x3b");
        cbn [Js.startsWith]; now rewrite H3b).
  rewrite (replaceAll_other (lit "\x0a")) by reflexivity.
  rewrite (replaceAll_other (lit "\x0a")).
  2:{ change (lit "\x0a") with (BACKSLASH :: lit "x0a").
      change (lit "\x3b") with (BACKSLASH :: lit "x3b").
      cbn [Js.startsWith]. rewrite startsWith_replaceAll.
      - now rewrite H0a.
      - vm_compute. intuition discriminate.
      - vm_compute. intuition discriminate. }
  change (BACKSLASH :: BACKSLASH ::
            Js.replaceAll (lit "\x0a") [NEWLINE]
              (Js.replaceAll (lit "\x3b") [SEMI] r))
    with ((BACKSLASH :: [BACKSLASH])
            ++ Js.replaceAll (lit "\x0a") [NEWLINE]
                 (Js.replaceAll (lit "\x3b") [SEMI] r)).
  change (lit "\\") with (BACKSLASH :: [BACKSLASH]).
  now rewrite replaceAll_match.
Qed.

Lemma unescapeValue_other x s :
  Js.startsWith (x :: s) (lit "\x3b") = false ->
  Js.startsWith (x :: s) (lit "\x0a") = false ->
  Js.startsWith (x :: s) (lit "\\") = false ->
  unescapeValue (x :: s) = x :: unescapeValue s.
Proof.
  intros H1 H2 H3. unfold unescapeValue.
  rewrite (replaceAll_other (lit "\x3b")) by assumption.
  rewrite (replaceAll_other (lit "\x0a")).
  2:{ change (lit "\x0a") with (BACKSLASH :: lit "x0a") in *.
      change (lit "\x3b") with (BACKSLASH :: lit "x3b").
      cbn [Js.startsWith] in *. rewrite startsWith_replaceAll.
      - exact H2.
      - vm_compute. intuition discriminate.
      - vm_compute. intuition discriminate. }
  rewrite (replaceAll_other (lit "\\")); [reflexivity|].
  change (lit "\\") with (BACKSLASH :: [BACKSLASH]) in *.
  rewrite startsWith_cons in H3 |- *.
  apply andb_false_iff in H3 as [Hx|Hs]; [now rewrite Hx|].
  change (lit "\x0a") with (BACKSLASH :: lit "x0a").
  change (lit "\x3b") with (BACKSLASH :: lit "x3b").
  rewrite (head_backslash _ _ _ (head_backslash _ _ _ Hs)).
  apply andb_false_r.
Qed.

(** On a text without a doubled backslash in front of [x3b] or
    [x0a], the chained substitutions decode every marker once. *)
Lemma unescape_agree n :
  forall s, length s <= n ->
    includes s (lit "\\x3b") = false ->
    includes s (lit "\\x0a") = false ->
    unescapeValue s = unescapeOnePass s.
Proof.
  induction n as [|n IH]; intros [|x s] Hlen H3b H0a;
    try reflexivity; [simpl in Hlen; lia|].
  destruct (Js.startsWith (x :: s) (lit "\x3b")) eqn:H1.
  { apply startsWith_true in H1 as [r Hr]. rewrite Hr in *.
    rewrite unescapeValue_semi, unescapeOnePass_semi. f_equal.
    apply IH.
    - rewrite length_app in Hlen. simpl in Hlen. lia.
    - exact (includes_skipn 4 _ _ H3b).
    - exact (includes_skipn 4 _ _ H0a). }
  destruct (Js.startsWith (x :: s) (lit "\x0a")) eqn:H2.
  { apply startsWith_true in H2 as [r Hr]. rewrite Hr in *.
    rewrite unescapeValue_newline, unescapeOnePass_newline. f_equal.
    apply IH.
    - rewrite length_app in Hlen. simpl in Hlen. lia.
    - exact (includes_skipn 4 _ _ H3b).
    - exact (includes_skipn 4 _ _ H0a). }
  destruct (Js.startsWith (x :: s) (lit "\\")) eqn:H3.
  { apply startsWith_true in H3 as [r Hr]. rewrite Hr in *.
    pose proof (proj1 (includes_tail _ _ _ H3b)) as S3b.
    pose proof (proj1 (includes_tail _ _ _ H0a)) as S0a.
    rewrite unescapeValue_backslash, unescapeOnePass_backslash.
    - f_equal. apply IH.
      + rewrite length_app in Hlen. simpl in Hlen. lia.
      + exact (includes_skipn 2 _ _ H3b).
      + exact (includes_skipn 2 _ _ H0a).
    - exact S3b.
    - exact S0a. }
  rewrite unescapeValue_other, unescapeOnePass_other by assumption.
  f_equal. apply IH; [simpl in Hlen; lia| |].
  - exact (proj2 (includes_tail _ _ _ H3b)).
  - exact (proj2 (includes_tail _ _ _ H0a)).
Qed.

End Agreement.

Section Fields.

Implicit Types (name value command nonce exitCode : str).

Lemma no_SEMI_in_type : ~ In SEMI D /\ ~ In SEMI E /\ ~ In SEMI P.
Proof. vm_compute. intuition discriminate. Qed.

Lemma split_two k field :
  ~ In SEMI k -> ~ In SEMI field ->
  Js.split SEMI (k ++ SEMI :: field) = [k; field].
Proof.
  intros Hk Hf. rewrite split_sep by assumption.
  now rewrite split_no_sep.
Qed.

Lemma split_three k field field' :
  ~ In SEMI k -> ~ In SEMI field -> ~ In SEMI field' ->
  Js.split SEMI (k ++ SEMI :: field ++ SEMI :: field') = [k; field; field'].
Proof.
  intros Hk Hf Hf'. rewrite split_sep by assumption.
  now rewrite split_two.
Qed.

Lemma parseSequence_D exitCode :
  ~ In SEMI exitCode ->
  parseSequence (D ++ SEMI :: exitCode) = CommandEnd (Some exitCode).
Proof.
  intros H. destruct no_SEMI_in_type as (HD & _ & _).
  now rewrite (parseSequence_parts _ _ _ (split_two D exitCode HD H)).
Qed.

Lemma parseSequence_E command nonce :
  ~ In SEMI command -> ~ In SEMI nonce ->
  parseSequence (E ++ SEMI :: command ++ SEMI :: nonce)
  = CommandLine (unescapeValue command) (Some nonce).
Proof.
  intros Hc Hn. destruct no_SEMI_in_type as (_ & HE & _).
  now rewrite (parseSequence_parts _ _ _
                 (split_three E command nonce HE Hc Hn)).
Qed.

Lemma parseSequence_P name value :
  name <> [] -> ~ In EQUALS name ->
  ~ In SEMI name -> ~ In SEMI value ->
  parseSequence (P ++ SEMI :: name ++ EQUALS :: value)
  = PropertyUpdate name (unescapeValue value).
Proof.
  intros Hne Heq Hn Hv. destruct no_SEMI_in_type as (_ & _ & HP).
  assert (Hfield : ~ In SEMI (name ++ EQUALS :: value)).
  { rewrite in_app_iff. cbn [In]. intros [H|[H|H]]; auto. discriminate. }
  rewrite (parseSequence_parts _ _ _
             (split_two P (name ++ EQUALS :: value) HP Hfield)).
  change (Js.eqb P A) with false. change (Js.eqb P B) with false.
  change (Js.eqb P C) with false. change (Js.eqb P D) with false.
  change (Js.eqb P E) with false. change (Js.eqb P P) with true. cbv iota.
  unfold parsePropertyUpdate. cbn [nth_error].
  rewrite indexOf_EQUALS, slice_prefix by assumption.
  destruct (Js.eqb name []) eqn:Hempty.
  - apply eqb_eq in Hempty. contradiction.
  - do 2 f_equal.
    replace (name ++ EQUALS :: value) with ((name ++ [EQUALS]) ++ value)
      by now rewrite <- app_assoc.
    replace (length name + 1) with (length (name ++ [EQUALS]))
      by now rewrite length_app.
    apply sliceFrom_app.
Qed.

End Fields.

(** C3.  The code at the failing input.  A doubled backslash followed
    by [x3b] is, by the escaping rules of the README, a backslash
    followed by [x3b]; the first substitution takes the second backslash
    for the beginning of a marker, and [unescapeValue] gives a backslash
    followed by a semicolon, which is not what decoding the markers of
    the original text gives. *)
Lemma escaped_backslash_before_marker :
  unescapeValue (lit "\\x3b") = lit "\;"
  /\ unescapeOnePass (lit "\\x3b") = lit "\x3b"
  /\ unescapeValue (lit "\\x3b") <> unescapeOnePass (lit "\\x3b")
  /\ parse [OSC633_START ++ lit "E;\\x3b" ++ [ST]]
     = [CommandLine (lit "\;") None].
Proof.
  repeat split; try (vm_compute; reflexivity). vm_compute. discriminate.
Qed.

(** ** Further properties of the module *)

(** *** The prefix test and the unescaping *)

(** X1. [isPartialOSC633Start] holds exactly of the prefixes of the
    sequence start, the empty string and the whole start included. *)
Theorem isPartialOSC633Start_prefix (s : str) :
  isPartialOSC633Start s = true <-> exists r, OSC633_START = s ++ r.
Proof.
  rewrite isPartial_prefix, eqb_eq. split.
  - intros H. exists (skipn (length s) OSC633_START).
    rewrite H at 1. apply eq_sym, firstn_skipn.
  - intros [r ->]. rewrite firstn_app, firstn_all, Nat.sub_diag.
    cbn [firstn]. now rewrite app_nil_r.
Qed.

Lemma replaceAll_absent (y : ascii) (pat rep s : str) :
  ~ In y s -> Js.replaceAll (y :: pat) rep s = s.
Proof.
  induction s as [|x s IH]; intros H; [reflexivity|].
  rewrite replaceAll_other.
  - rewrite IH; [reflexivity|]. intros Hin. apply H. now right.
  - rewrite startsWith_cons.
    destruct (Ascii.eqb_spec x y) as [->|_]; [|reflexivity].
    exfalso. apply H. now left.
Qed.

(** X2. A value without backslash is unescaped to itself. *)
Theorem unescapeValue_plain (value : str) :
  ~ In BACKSLASH value -> unescapeValue value = value.
Proof.
  intros H. unfold unescapeValue.
  change (lit "\x3b") with (BACKSLASH :: lit "x3b").
  change (lit "\x0a") with (BACKSLASH :: lit "x0a").
  change (lit "\\") with (BACKSLASH :: [BACKSLASH]).
  now rewrite !(replaceAll_absent _ _ _ value H).
Qed.

Lemma unescapeValue_plain_witness :
  ~ In BACKSLASH (lit "echo hello; world")
  /\ unescapeValue (lit "echo hello; world") = lit "echo hello; world".
Proof.
  assert (H : ~ In BACKSLASH (lit "echo hello; world"))
    by (vm_compute; intuition discriminate).
  split; [exact H|]. exact (unescapeValue_plain _ H).
Defined.

Lemma replaceAll_length (y : ascii) (pat rep : str) (n : nat) :
  length rep <= length (y :: pat) ->
  forall s, length s <= n ->
    length (Js.replaceAll (y :: pat) rep s) <= length s.
Proof.
  intros Hrep. induction n as [|n IH]; intros [|x s] Hlen;
    try (cbn in *; lia).
  destruct (Js.startsWith (x :: s) (y :: pat)) eqn:Hm.
  - apply startsWith_true in Hm as [r Hr]. rewrite Hr.
    rewrite replaceAll_match, !length_app.
    assert (length r <= n).
    { apply (f_equal (@length ascii)) in Hr. rewrite length_app in Hr.
      cbn [length] in *. lia. }
    specialize (IH r). lia.
  - rewrite replaceAll_other by assumption. cbn [length] in *.
    specialize (IH s). lia.
Qed.

(** X3. Unescaping never makes a value longer. *)
Theorem unescapeValue_length (value : str) :
  length (unescapeValue value) <= length value.
Proof.
  unfold unescapeValue.
  change (lit "\x3b") with (BACKSLASH :: lit "x3b").
  change (lit "\x0a") with (BACKSLASH :: lit "x0a").
  change (lit "\\") with (BACKSLASH :: [BACKSLASH]).
  set (v1 := Js.replaceAll (BACKSLASH :: lit "x3b") [SEMI] value).
  set (v2 := Js.replaceAll (BACKSLASH :: lit "x0a") [NEWLINE] v1).
  assert (H1 : length v1 <= length value)
    by (apply (replaceAll_length _ _ _ (length value)); cbn; lia).
  assert (H2 : length v2 <= length v1)
    by (apply (replaceAll_length _ _ _ (length v1)); cbn; lia).
  assert (H3 : length (Js.replaceAll (BACKSLASH :: [BACKSLASH])
                         (lit "\") v2) <= length v2)
    by (apply (replaceAll_length _ _ _ (length v2)); cbn; lia).
  lia.
Qed.

(** *** Where the entries come from *)

Lemma sources_flushed (out : str) :
  exists texts, Forall2 Source (flushed out) texts /\ concat texts = out.
Proof.
  unfold flushed. destruct out as [|x out]; cbn.
  - exists []. auto.
  - exists [x :: out]. split; [repeat constructor|]. cbn.
    now rewrite app_nil_r.
Qed.

Lemma scan_sources (buf out : str) :
  exists texts,
    Forall2 Source (fst (scan (mkScan buf out))) texts
    /\ concat texts
       ++ outputBuffer (snd (scan (mkScan buf out)))
       ++ buffer (snd (scan (mkScan buf out)))
       = out ++ buf.
Proof.
  remember (length buf) as n eqn:Hn.
  revert buf out Hn; induction n as [n IH] using lt_wf_ind.
  intros buf out Hn.
  destruct (form_of buf) as [t Ht|t r Ht Hs Hp|t r Ht Hs Hp
                            |t body Ht Hb|t body rest Ht Hb].
  - rewrite scan_text by assumption. exists []. cbn.
    split; [constructor | now rewrite app_nil_r].
  - rewrite scan_partial by assumption. exists []. cbn.
    split; [constructor | now rewrite <- app_assoc].
  - rewrite scan_stray by assumption.
    destruct (IH (length r)) with (buf := r) (out := out ++ t ++ [ESC])
      as (texts & Hsrc & Hcat);
      [subst n; rewrite length_app; simpl; lia|reflexivity|].
    exists texts. split; [assumption|]. rewrite Hcat.
    now rewrite <- !app_assoc.
  - rewrite scan_open by assumption. exists []. cbn.
    split; [constructor | now rewrite <- app_assoc].
  - rewrite scan_closed, fst_after, !snd_after by assumption.
    destruct (IH (length rest)) with (buf := rest) (out := @nil ascii)
      as (texts & Hsrc & Hcat);
      [subst n; rewrite !length_app; simpl; lia|reflexivity|].
    destruct (sources_flushed (out ++ t)) as (texts0 & Hsrc0 & Hcat0).
    exists (texts0 ++ (OSC633_START ++ body ++ [ST]) :: texts). split.
    + rewrite <- app_assoc. apply Forall2_app; [assumption|].
      constructor; [now apply SourceSequence | assumption].
    + rewrite concat_app. cbn [concat]. rewrite Hcat0, <- !app_assoc.
      rewrite Hcat. reflexivity.
Qed.

Lemma parse_sources (chunks : list str) :
  exists texts,
    Forall2 Source (parse chunks) texts /\ concat texts = concat chunks.
Proof.
  rewrite parse_scan.
  destruct (scan_sources (concat chunks) []) as (texts & Hsrc & Hcat).
  destruct (scan (mkScan (concat chunks) [])) as [ys [buf out]].
  cbn [fst snd buffer outputBuffer app] in *.
  rewrite finish_flushed.
  destruct (sources_flushed (out ++ buf)) as (texts' & Hsrc' & Hcat').
  exists (texts ++ texts'). split.
  - now apply Forall2_app.
  - now rewrite concat_app, Hcat'.
Qed.

Lemma Forall2_In_left {X Y : Type} (R : X -> Y -> Prop) l l' x :
  Forall2 R l l' -> In x l ->
  exists before y after, l' = before ++ y :: after /\ R x y.
Proof.
  induction 1 as [|x0 y0 l l' Hxy _ IH]; intros Hin; [contradiction|].
  destruct Hin as [->|Hin].
  - now exists [], y0, l'.
  - destruct (IH Hin) as (before & y & after & -> & Hr).
    now exists (y0 :: before), y, after.
Qed.

(** X4. Every entry other than [Output] that [parse] yields is the decoding
    of a body that stands in the text between a sequence start and the
    first terminator after it. *)
Theorem sequence_provenance (chunks : list str) (e : Entry) :
  In e (parse chunks) -> isOutput e = false ->
  exists before body after,
    concat chunks = before ++ OSC633_START ++ body ++ ST :: after
    /\ ~ In ST body
    /\ e = parseSequence body.
Proof.
  intros Hin Hout.
  destruct (parse_sources chunks) as (texts & Hsrc & Hcat).
  destruct (Forall2_In_left _ _ _ _ Hsrc Hin)
    as (before & w & after & -> & Hw).
  inversion Hw as [value Hv Hw'|body Hb Hv Hw']; subst.
  - discriminate.
  - exists (concat before), body, (concat after).
    rewrite <- Hcat, concat_app. cbn [concat].
    rewrite <- !app_assoc. auto.
Qed.

Lemma sequence_provenance_witness :
  exists before body after,
    concat [lit "$ "; OSC633_START ++ lit "D;0" ++ [ST]]
    = before ++ OSC633_START ++ body ++ ST :: after
    /\ ~ In ST body
    /\ CommandEnd (Some (lit "0")) = parseSequence body.
Proof.
  apply (sequence_provenance [lit "$ "; OSC633_START ++ lit "D;0" ++ [ST]]).
  - vm_compute. auto.
  - reflexivity.
Defined.

(** X5. The value of every [Output] that [parse] yields stands in the text
    as it is. *)
Theorem output_verbatim (chunks : list str) (value : str) :
  In (Output value) (parse chunks) ->
  exists before after, concat chunks = before ++ value ++ after.
Proof.
  intros Hin.
  destruct (parse_sources chunks) as (texts & Hsrc & Hcat).
  destruct (Forall2_In_left _ _ _ _ Hsrc Hin)
    as (before & w & after & -> & Hw).
  inversion Hw as [value' Hv Hw'|body Hb Hv Hw']; subst.
  - exists (concat before), (concat after).
    now rewrite <- Hcat, concat_app.
  - pose proof (parseSequence_not_output body) as Hno.
    rewrite Hv in Hno. discriminate.
Qed.

Lemma output_verbatim_witness :
  exists before after,
    concat [lit "a\x3b"; [ESC]; lit "[0m"; OSC633_START ++ lit "A" ++ [ST]]
    = before ++ (lit "a\x3b" ++ [ESC] ++ lit "[0m") ++ after.
Proof.
  apply (output_verbatim
           [lit "a\x3b"; [ESC]; lit "[0m"; OSC633_START ++ lit "A" ++ [ST]]).
  vm_compute. auto.
Defined.

(** *** Text without a complete sequence *)

Lemma scan_no_sequence (buf out : str) :
  (forall t body rest, buf <> t ++ OSC633_START ++ body ++ ST :: rest) ->
  fst (scan (mkScan buf out)) = [].
Proof.
  remember (length buf) as n eqn:Hn.
  revert buf out Hn; induction n as [n IH] using lt_wf_ind.
  intros buf out Hn Hnone.
  destruct (form_of buf) as [t Ht|t r Ht Hs Hp|t r Ht Hs Hp
                            |t body Ht Hb|t body rest Ht Hb].
  - now rewrite scan_text.
  - now rewrite scan_partial.
  - rewrite scan_stray by assumption.
    apply (IH (length r)); [subst n; rewrite length_app; simpl; lia
                           |reflexivity|].
    intros t' body rest ->.
    apply (Hnone (t ++ ESC :: t') body rest).
    now rewrite <- app_assoc.
  - now rewrite scan_open.
  - exfalso. now apply (Hnone t body rest).
Qed.

(** X6. When no sequence start in the text is followed by a terminator,
    [parse] yields the whole text as one [Output], and nothing when
    the text is empty: text without escape character, escape sequences
    of other families and a sequence that is never terminated all
    pass through. *)
Theorem parse_without_sequence (chunks : list str) :
  (forall before body after,
      concat chunks <> before ++ OSC633_START ++ body ++ ST :: after) ->
  (concat chunks = [] -> parse chunks = [])
  /\ (concat chunks <> [] -> parse chunks = [Output (concat chunks)]).
Proof.
  intros Hnone. rewrite parse_scan.
  pose proof (scan_no_sequence (concat chunks) [] Hnone) as Hys.
  destruct (scan_sources (concat chunks) []) as (texts & Hsrc & Hcat).
  destruct (scan (mkScan (concat chunks) [])) as [ys [buf out]].
  cbn [fst snd buffer outputBuffer app] in *. subst ys.
  inversion Hsrc; subst. cbn [concat app] in Hcat.
  rewrite finish_flushed, Hcat. unfold flushed.
  split; intros H.
  - now rewrite H.
  - destruct (concat chunks); [contradiction|reflexivity].
Qed.

Lemma parse_without_sequence_witness :
  parse [lit "ls "; [ESC]; lit "[31mred"; OSC633_START ++ lit "E;ls"]
  = [Output (concat [lit "ls "; [ESC]; lit "[31mred";
                     OSC633_START ++ lit "E;ls"])].
Proof.
  apply (parse_without_sequence
           [lit "ls "; [ESC]; lit "[31mred"; OSC633_START ++ lit "E;ls"]).
  - intros before body after H.
    assert (Hin : In ST (concat [lit "ls "; [ESC]; lit "[31mred";
                                 OSC633_START ++ lit "E;ls"])).
    { rewrite H, !in_app_iff. right. right. right. now left. }
    vm_compute in Hin. intuition discriminate.
  - discriminate.
Defined.

(** *** The state between fragments *)

(** X7. After any fragments, the buffer that [parse] carries over is empty,
    or a proper prefix of the sequence start, or a sequence start with
    a body without terminator: text that belongs to no sequence is
    never kept in the buffer. *)
Theorem residue_pending (chunks : list str) :
  (residue chunks).(buffer) = []
  \/ (exists r, (residue chunks).(buffer) ++ r = OSC633_START
                /\ (residue chunks).(buffer) <> [] /\ r <> [])
  \/ (exists body, (residue chunks).(buffer) = OSC633_START ++ body
                   /\ ~ In ST body).
Proof.
  destruct (emitted_residue chunks) as [_ ->].
  pose proof (scan_settled (mkScan (concat chunks) [])) as Hset.
  destruct (scan (mkScan (concat chunks) [])) as [ys [buf out]].
  cbn [snd buffer] in *.
  destruct (settled_forms _ _ Hset)
    as [->|[(r & -> & Hs & Hp)|(body & -> & Hb)]].
  - now left.
  - right; left. pose proof (partial_inv r Hs Hp) as Hr.
    cbn [In] in Hr.
    destruct Hr as [<-|[<-|[<-|[<-|[<-|[]]]]]].
    + exists (lit "]633;"). repeat split; discriminate.
    + exists (lit "633;"). repeat split; discriminate.
    + exists (lit "33;"). repeat split; discriminate.
    + exists (lit "3;"). repeat split; discriminate.
    + exists (lit ";"). repeat split; discriminate.
  - right; right. now exists body.
Qed.

(** *** Composition *)

(** X8. When [parse] has nothing pending after the first fragments, the
    entries for these fragments followed by others are the entries for
    the first followed by the entries for the others. *)
Theorem parse_app (chunks chunks' : list str) :
  (residue chunks).(buffer) = [] ->
  (residue chunks).(outputBuffer) = [] ->
  parse (chunks ++ chunks') = parse chunks ++ parse chunks'.
Proof.
  destruct (emitted_residue chunks) as [_ ->].
  rewrite !parse_scan, concat_app, scan_app, fst_after, snd_after.
  destruct (scan (mkScan (concat chunks) [])) as [ys [buf out]].
  cbn [fst snd buffer outputBuffer]. intros -> ->.
  cbn [app finish buffer outputBuffer length Nat.ltb Nat.leb orb].
  now rewrite app_nil_r, app_assoc.
Qed.

Lemma parse_app_witness :
  parse ([lit "$ "; OSC633_START ++ lit "A" ++ [ST]] ++ [lit "ls"])
  = parse [lit "$ "; OSC633_START ++ lit "A" ++ [ST]] ++ parse [lit "ls"].
Proof.
  apply (parse_app [lit "$ "; OSC633_START ++ lit "A" ++ [ST]] [lit "ls"]);
    reflexivity.
Defined.

(** X9. A terminated sequence of any type that follows a text in which no
    sequence is left open yields its decoding, after the entries for
    that text and before the entries for the rest alone. *)
Theorem sequence_resumes (chunks : list str) (prefixText body rest : str) :
  concat chunks = prefixText ++ OSC633_START ++ body ++ ST :: rest ->
  ~ In ST body ->
  Js.startsWith (residue [prefixText]).(buffer) OSC633_START = false ->
  parse chunks = parse [prefixText] ++ [parseSequence body] ++ parse [rest].
Proof.
  intros Htext Hb Hopen.
  rewrite !parse_scan, Htext. cbn [concat]. rewrite !app_nil_r.
  destruct (emitted_residue [prefixText]) as [_ Hr]. rewrite Hr in Hopen.
  cbn [concat] in Hopen. rewrite app_nil_r in Hopen.
  rewrite scan_app, fst_after, snd_after.
  pose proof (scan_settled (mkScan prefixText [])) as Hset.
  destruct (scan (mkScan prefixText [])) as [ys [buf out]].
  cbn [fst snd buffer outputBuffer] in *.
  rewrite scan_pending_start, scan_closed0 by assumption.
  rewrite fst_after, snd_after, finish_flushed.
  now rewrite <- !app_assoc.
Qed.

Lemma sequence_resumes_witness :
  parse [lit "cd /tmp"; OSC633_START ++ lit "P;Cwd=/tmp"; [ST] ++ lit "done"]
  = parse [lit "cd /tmp"] ++ [parseSequence (lit "P;Cwd=/tmp")]
    ++ parse [lit "done"].
Proof.
  apply (sequence_resumes
           [lit "cd /tmp"; OSC633_START ++ lit "P;Cwd=/tmp"; [ST] ++ lit "done"]
           (lit "cd /tmp") (lit "P;Cwd=/tmp") (lit "done")).
  - reflexivity.
  - vm_compute. intuition discriminate.
  - reflexivity.
Defined.

(** *** How many entries *)

Lemma sequenceEntries_app (ys ys' : list Entry) :
  sequenceEntries (ys ++ ys') = sequenceEntries ys ++ sequenceEntries ys'.
Proof. apply filter_app. Qed.

Lemma sequenceEntries_flushed (out : str) : sequenceEntries (flushed out) = [].
Proof. unfold flushed. now destruct out. Qed.

Lemma scan_sequence_count (buf out : str) :
  length (sequenceEntries (fst (scan (mkScan buf out))))
  <= count_occ ascii_dec buf ST.
Proof.
  remember (length buf) as n eqn:Hn.
  revert buf out Hn; induction n as [n IH] using lt_wf_ind.
  intros buf out Hn.
  destruct (form_of buf) as [t Ht|t r Ht Hs Hp|t r Ht Hs Hp
                            |t body Ht Hb|t body rest Ht Hb].
  - rewrite scan_text by assumption. cbn. lia.
  - rewrite scan_partial by assumption. cbn. lia.
  - rewrite scan_stray by assumption.
    specialize (IH (length r)) with (buf := r) (out := out ++ t ++ [ESC]).
    rewrite count_occ_app. cbn [count_occ].
    destruct (ascii_dec ESC ST); [discriminate|].
    assert (length r < n) by (subst n; rewrite length_app; simpl; lia).
    specialize (IH H eq_refl). lia.
  - rewrite scan_open by assumption. cbn. lia.
  - rewrite scan_closed, fst_after by assumption.
    rewrite !sequenceEntries_app, sequenceEntries_flushed.
    specialize (IH (length rest)) with (buf := rest) (out := @nil ascii).
    assert (length rest < n) by (subst n; rewrite !length_app; simpl; lia).
    specialize (IH H eq_refl).
    rewrite !count_occ_app. cbn [count_occ].
    destruct (ascii_dec ST ST); [|congruence].
    cbn [app sequenceEntries filter].
    rewrite parseSequence_not_output. cbn [negb length].
    fold (sequenceEntries (fst (scan (mkScan rest [])))).
    rewrite length_app. cbn [length]. lia.
Qed.

Lemma groups_length (ys : list Entry) :
  Groups ys -> length ys <= 2 * length (sequenceEntries ys).
Proof.
  induction 1 as [|e ys He _ IH|v e ys Hv He _ IH]; cbn [sequenceEntries filter].
  - cbn. lia.
  - rewrite He. cbn [negb length].
    fold (sequenceEntries ys). lia.
  - cbn [isOutput negb]. rewrite He. cbn [negb length].
    fold (sequenceEntries ys). lia.
Qed.

(** X10. [parse] yields at most one entry other than [Output] for each
    terminator in the text, and at most twice as many entries as there
    are terminators, and one. *)
Theorem entries_bound (chunks : list str) :
  length (sequenceEntries (parse chunks))
  <= count_occ ascii_dec (concat chunks) ST
  /\ length (parse chunks) <= 2 * count_occ ascii_dec (concat chunks) ST + 1.
Proof.
  rewrite parse_scan.
  pose proof (scan_sequence_count (concat chunks) []) as Hcount.
  pose proof (scan_groups (concat chunks) []) as Hgroups.
  apply groups_length in Hgroups.
  destruct (scan (mkScan (concat chunks) [])) as [ys [buf out]].
  cbn [fst snd] in *. rewrite finish_flushed.
  rewrite sequenceEntries_app, sequenceEntries_flushed, app_nil_r.
  split; [assumption|]. rewrite length_app.
  assert (length (flushed (out ++ buf)) <= 1)
    by (unfold flushed; destruct (out ++ buf); cbn; lia).
  lia.
Qed.

(** *** The fields of the entries *)

Lemma parse_entry_body (chunks : list str) (e : Entry) :
  In e (parse chunks) -> isOutput e = false ->
  exists body, ~ In ST body /\ e = parseSequence body.
Proof.
  intros Hin Hout.
  destruct (parse_sources chunks) as (texts & Hsrc & _).
  destruct (Forall2_In_left _ _ _ _ Hsrc Hin) as (_ & w & _ & _ & Hw).
  inversion Hw as [value Hv Hw'|body Hb Hv Hw']; subst.
  - discriminate.
  - now exists body.
Qed.

Lemma split_parts_no_sep (c : ascii) (s : str) :
  Forall (fun p => ~ In c p) (Js.split c s).
Proof.
  induction s as [|x s IH]; cbn [Js.split].
  - constructor; [intros []|constructor].
  - destruct (Ascii.eqb_spec x c) as [->|Hn].
    + constructor; [intros []|assumption].
    + destruct (Js.split c s) as [|p ps]; [repeat constructor|].
      * intros [H|[]]. congruence.
      * inversion IH; subst. constructor; [|assumption].
        intros [H|H]; [congruence|contradiction].
Qed.

Lemma split_parts_incl (c : ascii) (s p : str) :
  In p (Js.split c s) -> forall x, In x p -> In x s.
Proof.
  revert p; induction s as [|x s IH]; cbn [Js.split]; intros p Hp y Hy.
  - destruct Hp as [<-|[]]. contradiction.
  - destruct (Ascii.eqb_spec x c) as [->|Hn].
    + destruct Hp as [<-|Hp]; [contradiction|]. right. now apply (IH p).
    + destruct (Js.split c s) as [|q qs].
      * destruct Hp as [<-|[]]. destruct Hy as [<-|[]]. now left.
      * destruct Hp as [<-|Hp].
        -- destruct Hy as [<-|Hy]; [now left|].
           right. apply (IH q); [now left|assumption].
        -- right. apply (IH p); [now right|assumption].
Qed.

Lemma part_clean (body part : str) :
  ~ In ST body -> In part (Js.split SEMI body) ->
  ~ In SEMI part /\ ~ In ST part.
Proof.
  intros Hb Hin. split.
  - pose proof (split_parts_no_sep SEMI body) as H.
    rewrite Forall_forall in H. now apply H.
  - intros H. apply Hb. now apply (split_parts_incl SEMI body part).
Qed.

(** What the body of a sequence was, from its decoding. *)
Lemma parseSequence_inv (body : str) :
  exists type rest,
    Js.split SEMI body = type :: rest
    /\ ((type = A /\ parseSequence body = PromptStart)
        \/ (type = B /\ parseSequence body = PromptEnd)
        \/ (type = C /\ parseSequence body = CommandStart)
        \/ (type = D /\ parseSequence body = CommandEnd (nth_error rest 0))
        \/ (type = E /\ rest = []
            /\ parseSequence body
               = newInvalid [E] (lit "Missing command parameter"))
        \/ (type = E /\ exists raw more,
               rest = raw :: more
               /\ parseSequence body
                  = CommandLine (unescapeValue raw) (nth_error more 0))
        \/ (type = P /\ rest = []
            /\ parseSequence body
               = newInvalid [P] (lit "Missing name-value parameter"))
        \/ (type = P /\ exists part more,
               rest = part :: more /\ ~ In EQUALS part
               /\ parseSequence body
                  = newInvalid (P :: rest)
                      (lit "Invalid property format: missing '='"))
        \/ (type = P /\ exists raw more,
               rest = (EQUALS :: raw) :: more
               /\ parseSequence body
                  = newInvalid (P :: rest) (lit "Missing property name"))
        \/ (type = P /\ exists name raw more,
               rest = (name ++ EQUALS :: raw) :: more
               /\ name <> [] /\ ~ In EQUALS name
               /\ parseSequence body = PropertyUpdate name (unescapeValue raw))
        \/ (~ In type [A; B; C; D; E; P]
            /\ parseSequence body
               = newInvalid (type :: rest)
                   (lit "Unknown sequence type: " ++ type))).
Proof.
  pose proof (split_nonempty SEMI body) as Hne.
  destruct (Js.split SEMI body) as [|type rest] eqn:Hsplit; [congruence|].
  exists type, rest. split; [reflexivity|].
  rewrite (parseSequence_parts _ _ _ Hsplit).
  destruct (Js.eqb type A) eqn:HA; [apply eqb_eq in HA; auto|].
  destruct (Js.eqb type B) eqn:HB; [apply eqb_eq in HB; auto|].
  destruct (Js.eqb type C) eqn:HC; [apply eqb_eq in HC; auto 6|].
  destruct (Js.eqb type D) eqn:HD; [apply eqb_eq in HD; auto 6|].
  destruct (Js.eqb type E) eqn:HE.
  { apply eqb_eq in HE. subst type. unfold parseCommandLine.
    destruct rest as [|raw more]; cbn [nth_error].
    - do 4 right. left. auto.
    - do 5 right. left. split; [reflexivity|]. now exists raw, more. }
  destruct (Js.eqb type P) eqn:HP.
  { apply eqb_eq in HP. subst type. unfold parsePropertyUpdate.
    destruct rest as [|part more]; cbn [nth_error].
    - do 6 right. left. auto.
    - destruct (Js.indexOf EQUALS part) as [i|] eqn:Hi.
      + apply indexOf_Some in Hi as (name & raw & -> & Hname & <-).
        rewrite slice_prefix.
        destruct name as [|x name].
        * do 8 right. left. split; [reflexivity|]. now exists raw, more.
        * do 9 right. left. split; [reflexivity|].
          exists (x :: name), raw, more.
          repeat split; [discriminate|assumption|].
          cbn [Js.eqb]. do 2 f_equal.
          replace ((x :: name) ++ EQUALS :: raw)
            with (((x :: name) ++ [EQUALS]) ++ raw)
            by now rewrite <- app_assoc.
          replace (length (x :: name) + 1)
            with (length ((x :: name) ++ [EQUALS]))
            by now rewrite length_app.
          apply sliceFrom_app.
      + apply indexOf_None in Hi.
        do 7 right. left. split; [reflexivity|]. now exists part, more. }
  do 10 right. split; [|reflexivity].
  apply eqb_neq in HA, HB, HC, HD, HE, HP.
  cbn [In]. intuition congruence.
Qed.

Ltac sequence_cases body :=
  let Hcases := fresh "Hcases" in
  destruct (parseSequence_inv body) as (?type & ?rest & ?Hsplit & Hcases);
  decompose [or and ex] Hcases; clear Hcases; subst;
  match goal with
  | H : parseSequence body = _ |- _ => rewrite H in *
  end;
  unfold newInvalid in *.

Lemma property_name_clean (chunks : list str) (name value : str) :
  In (PropertyUpdate name value) (parse chunks) ->
  name <> [] /\ ~ In EQUALS name /\ ~ In SEMI name /\ ~ In ST name.
Proof.
  intros Hin.
  destruct (parse_entry_body _ _ Hin eq_refl) as (body & Hb & Heq).
  sequence_cases body; try discriminate.
  inversion Heq; subst.
  match goal with
  | H : Js.split SEMI body = _ :: (?n ++ EQUALS :: ?r) :: _ |- _ =>
      assert (Hpart : In (n ++ EQUALS :: r) (Js.split SEMI body))
        by (rewrite H; right; now left)
  end.
  destruct (part_clean _ _ Hb Hpart) as [Hsemi Hst].
  repeat split; try assumption; intros Hn; [apply Hsemi | apply Hst];
    apply in_app_iff; now left.
Qed.

Lemma exit_code_clean (chunks : list str) (exitCode : str) :
  In (CommandEnd (Some exitCode)) (parse chunks) ->
  ~ In SEMI exitCode /\ ~ In ST exitCode.
Proof.
  intros Hin.
  destruct (parse_entry_body _ _ Hin eq_refl) as (body & Hb & Heq).
  sequence_cases body; try discriminate.
  inversion Heq as [Hnth].
  match goal with
  | H : Js.split SEMI body = _ :: ?rest |- _ =>
      destruct rest as [|c more]; [discriminate|];
      cbn in Hnth; inversion Hnth; subst;
      assert (Hpart : In c (Js.split SEMI body))
        by (rewrite H; right; now left)
  end.
  exact (part_clean _ _ Hb Hpart).
Qed.

Lemma nonce_clean (chunks : list str) (command nonce : str) :
  In (CommandLine command (Some nonce)) (parse chunks) ->
  ~ In SEMI nonce /\ ~ In ST nonce.
Proof.
  intros Hin.
  destruct (parse_entry_body _ _ Hin eq_refl) as (body & Hb & Heq).
  sequence_cases body; try discriminate.
  inversion Heq as [[Hcmd Hnth]].
  match goal with
  | H : Js.split SEMI body = _ :: _ :: ?more |- _ =>
      destruct more as [|c more']; [discriminate|];
      cbn in Hnth; inversion Hnth; subst;
      assert (Hpart : In c (Js.split SEMI body))
        by (rewrite H; right; right; now left)
  end.
  exact (part_clean _ _ Hb Hpart).
Qed.

(** X11. In what [parse] yields, the name of a [PropertyUpdate] is not
    empty and has no [=]; and a name, an exit code or a nonce has no
    [;] and no terminator. *)
Theorem field_invariants (chunks : list str) :
  (forall name value, In (PropertyUpdate name value) (parse chunks) ->
     name <> [] /\ ~ In EQUALS name /\ ~ In SEMI name /\ ~ In ST name)
  /\ (forall exitCode, In (CommandEnd (Some exitCode)) (parse chunks) ->
        ~ In SEMI exitCode /\ ~ In ST exitCode)
  /\ (forall command nonce,
        In (CommandLine command (Some nonce)) (parse chunks) ->
        ~ In SEMI nonce /\ ~ In ST nonce).
Proof.
  split; [|split].
  - intros name value. apply property_name_clean.
  - intros exitCode. apply exit_code_clean.
  - intros command nonce. apply nonce_clean.
Qed.

Lemma field_invariants_witness :
  lit "Cwd" <> [] /\ ~ In EQUALS (lit "Cwd")
  /\ ~ In SEMI (lit "Cwd") /\ ~ In ST (lit "Cwd").
Proof.
  apply (proj1 (field_invariants
                  [OSC633_START ++ lit "P;Cwd=/a=b;x"; [ST]])
               (lit "Cwd") (lit "/a=b")).
  vm_compute. auto.
Defined.

(** *** Invalid entries *)

(** X12. The decoding of a body fails in five ways only, and the [Invalid]
    that it gives has the fields of the body as parts, the first of
    them as type and the text of the sequence as [sequence]. *)
Theorem invalid_reasons (body : str) (info : InvalidInfo) :
  parseSequence body = Invalid info ->
  info.(parts) = Js.split SEMI body
  /\ info.(sequence) = OSC633_START ++ body ++ [ST]
  /\ (exists rest, info.(parts) = info.(oscType) :: rest)
  /\ ((info.(parts) = [E]
       /\ info.(message) = lit "Missing command parameter")
      \/ (info.(parts) = [P]
          /\ info.(message) = lit "Missing name-value parameter")
      \/ (exists part more,
             info.(parts) = P :: part :: more /\ ~ In EQUALS part
             /\ info.(message) = lit "Invalid property format: missing '='")
      \/ (exists raw more,
             info.(parts) = P :: (EQUALS :: raw) :: more
             /\ info.(message) = lit "Missing property name")
      \/ (~ In info.(oscType) [A; B; C; D; E; P]
          /\ info.(message) = lit "Unknown sequence type: " ++ info.(oscType))).
Proof.
  intros Hinv. split; [|split].
  2:{ rewrite (parseSequence_invalid _ _ Hinv). apply wireText_body. }
  - sequence_cases body; try discriminate;
      inversion Hinv; subst; cbn [parts]; congruence.
  - sequence_cases body; try discriminate;
      inversion Hinv; subst; cbn [parts oscType message nth_error]; split;
      eauto 10.
Qed.

Lemma invalid_reasons_witness :
  parseSequence (lit ";x")
  = Invalid {| sequence := OSC633_START ++ lit ";x" ++ [ST];
               oscType := [];
               parts := [[]; lit "x"];
               message := lit "Unknown sequence type: " |}
  /\ [[]; lit "x"] = Js.split SEMI (lit ";x").
Proof.
  split; [reflexivity|].
  exact (proj1 (invalid_reasons (lit ";x")
                  {| sequence := OSC633_START ++ lit ";x" ++ [ST];
                     oscType := [];
                     parts := [[]; lit "x"];
                     message := lit "Unknown sequence type: " |}
                  eq_refl)).
Defined.

Lemma parse_one_sequence (body : str) :
  ~ In ST body ->
  parse [OSC633_START ++ body ++ [ST]] = [parseSequence body].
Proof.
  intros Hb. rewrite parse_scan. cbn [concat]. rewrite app_nil_r.
  now rewrite scan_closed0.
Qed.

(** X13. Parsing the [sequence] of an [Invalid] that [parse] has yielded
    yields that [Invalid] again, and nothing else. *)
Theorem invalid_reparses (chunks : list str) (info : InvalidInfo) :
  In (Invalid info) (parse chunks) ->
  parse [info.(sequence)] = [Invalid info].
Proof.
  intros Hin.
  destruct (parse_entry_body _ _ Hin eq_refl) as (body & Hb & Heq).
  symmetry in Heq.
  rewrite (parseSequence_invalid _ _ Heq), wireText_body.
  rewrite parse_one_sequence by assumption. now rewrite Heq.
Qed.

Lemma invalid_reparses_witness :
  parse [OSC633_START ++ lit "P;novalue" ++ [ST]]
  = [Invalid {| sequence := OSC633_START ++ lit "P;novalue" ++ [ST];
                oscType := P;
                parts := [P; lit "novalue"];
                message := lit "Invalid property format: missing '='" |}].
Proof.
  apply (invalid_reparses
           [lit "a"; OSC633_START ++ lit "P;novalue" ++ [ST]; lit "b"]
           {| sequence := OSC633_START ++ lit "P;novalue" ++ [ST];
              oscType := P;
              parts := [P; lit "novalue"];
              message := lit "Invalid property format: missing '='" |}).
  vm_compute. auto.
Defined.

(** *** The sequences that the tests build *)

Lemma no_ST_in_type : ~ In ST (lit "D") /\ ~ In ST (lit "E;") /\ ~ In ST (lit "P;").
Proof. vm_compute. intuition discriminate. Qed.

Lemma notin_cons (x y : ascii) (s : str) :
  x <> y -> ~ In x s -> ~ In x (y :: s).
Proof. intros Hxy Hs [H|H]; [congruence|contradiction]. Qed.

(** X14. The text that [D] of the tests builds for an exit code without [;]
    and terminator parses to [CommandEnd] with that exit code; for the
    empty exit code and for none it parses to [CommandEnd] without exit
    code. *)
Theorem test_D_round_trip (exitCode : option str) :
  (forall c, exitCode = Some c -> ~ In SEMI c /\ ~ In ST c) ->
  Test.parseToArray [Test.D exitCode]
  = [CommandEnd (if Test.truthy exitCode then exitCode else None)].
Proof.
  intros Hclean. unfold Test.parseToArray, Test.D.
  change Test.OSC633 with OSC633_START.
  destruct exitCode as [[|x c]|]; [reflexivity| |reflexivity].
  destruct (Hclean (x :: c) eq_refl) as [Hsemi Hst].
  cbn [Test.optional Test.truthy]. change (lit "D") with D.
  rewrite (app_assoc D), parse_one_sequence.
  - cbn [app]. now rewrite (parseSequence_D (x :: c)).
  - apply notin_app; [apply no_ST_in_type|].
    apply notin_cons; [discriminate|assumption].
Qed.

Lemma test_D_round_trip_witness :
  Test.parseToArray [Test.D (Some (lit "127"))]
  = [CommandEnd (Some (lit "127"))].
Proof.
  apply (test_D_round_trip (Some (lit "127"))).
  intros c H. inversion H; subst. vm_compute. intuition discriminate.
Defined.





(** X17. Between two non-empty texts without escape character, the text
    that [InvalidSequence] of the tests builds parses to the decoding
    of its body between the two texts as [Output]; and when that
    decoding is an [Invalid], its [sequence] is the text that was
    built. *)
Theorem test_invalid_sequence
    (beforeText type afterText : str) (params : option str) :
  beforeText <> [] -> afterText <> [] -> ~ In ESC beforeText -> ~ In ESC afterText ->
  ~ In ST type -> (forall p, params = Some p -> ~ In ST p) ->
  Test.parseToArray [beforeText; Test.InvalidSequence type params; afterText]
  = [Output beforeText; parseSequence (type ++ Test.optional params);
     Output afterText]
  /\ (forall info,
         parseSequence (type ++ Test.optional params) = Invalid info ->
         info.(sequence) = Test.InvalidSequence type params).
Proof.
  intros Hb Ha Hbesc Haesc Htype Hparams.
  assert (Hbody : ~ In ST (type ++ Test.optional params)).
  { apply notin_app; [assumption|].
    destruct params as [[|x p]|]; cbn [Test.optional Test.truthy].
    - intros [].
    - apply notin_cons; [discriminate|]. exact (Hparams _ eq_refl).
    - intros []. }
  unfold Test.parseToArray, Test.InvalidSequence.
  change Test.OSC633 with OSC633_START. split.
  - rewrite parse_scan. cbn [concat]. rewrite app_nil_r.
    replace (beforeText ++ (OSC633_START ++ type ++ Test.optional params ++ [ST])
               ++ afterText)
      with (beforeText ++ OSC633_START ++ (type ++ Test.optional params)
              ++ ST :: afterText)
      by (rewrite <- !app_assoc; reflexivity).
    rewrite scan_closed, scan_text by assumption.
    cbn [after fst snd app]. rewrite finish_flushed, !app_nil_r.
    unfold flushed.
    destruct beforeText; [contradiction|]. destruct afterText; [contradiction|].
    reflexivity.
  - intros info Hinfo.
    rewrite (parseSequence_invalid _ _ Hinfo), wireText_body.
    now rewrite <- !app_assoc.
Qed.

Lemma test_invalid_sequence_witness :
  Test.parseToArray
    [lit "before"; Test.InvalidSequence (lit "X") (Some (lit "something"));
     lit "after"]
  = [Output (lit "before");
     parseSequence (lit "X" ++ Test.optional (Some (lit "something")));
     Output (lit "after")]
  /\ (forall info,
         parseSequence (lit "X" ++ Test.optional (Some (lit "something")))
         = Invalid info ->
         info.(sequence)
         = Test.InvalidSequence (lit "X") (Some (lit "something"))).
Proof.
  apply (test_invalid_sequence (lit "before") (lit "X") (lit "after")
           (Some (lit "something"))).
  - discriminate.
  - discriminate.
  - vm_compute. intuition discriminate.
  - vm_compute. intuition discriminate.
  - vm_compute. intuition discriminate.
  - intros p H. inversion H; subst. vm_compute. intuition discriminate.
Defined.

(** *** The constructor of [Invalid] *)

Lemma split_join (c : ascii) (ps : list str) :
  ps <> [] -> Forall (fun p => ~ In c p) ps ->
  Js.split c (Js.join c ps) = ps.
Proof.
  induction ps as [|p ps IH]; intros Hne Hclean; [congruence|].
  inversion Hclean as [|p' ps' Hp Hps]; subst.
  destruct ps as [|q ps].
  - cbn [Js.join]. now apply split_no_sep.
  - change (Js.join c (p :: q :: ps)) with (p ++ c :: Js.join c (q :: ps)).
    rewrite split_sep by assumption. f_equal.
    apply IH; [discriminate|assumption].
Qed.

Lemma join_clean (x c : ascii) (ps : list str) :
  x <> c -> Forall (fun p => ~ In x p) ps -> ~ In x (Js.join c ps).
Proof.
  intros Hxc. induction ps as [|p ps IH]; intros Hclean; [intros []|].
  inversion Hclean as [|p' ps' Hp Hps]; subst.
  destruct ps as [|q ps]; [assumption|].
  change (Js.join c (p :: q :: ps)) with (p ++ c :: Js.join c (q :: ps)).
  apply notin_app; [assumption|]. apply notin_cons; [assumption|].
  now apply IH.
Qed.

(** X18. The [sequence] of an [Invalid] built from parts without [;] and
    terminator, at least one, parses to one entry, the decoding of a
    body whose fields are these parts.  Built from no part at all, it
    has the empty type and parses to a body with one empty field. *)
Theorem newInvalid_sequence (ps : list str) (msg : str) :
  (ps <> [] ->
   Forall (fun p => ~ In SEMI p) ps -> Forall (fun p => ~ In ST p) ps ->
   exists info,
     newInvalid ps msg = Invalid info
     /\ info.(oscType) = hd [] ps
     /\ parse [info.(sequence)] = [parseSequence (Js.join SEMI ps)]
     /\ Js.split SEMI (Js.join SEMI ps) = ps)
  /\ (ps = [] ->
      exists info,
        newInvalid ps msg = Invalid info
        /\ info.(oscType) = []
        /\ info.(sequence) = OSC633_START ++ [ST]
        /\ Js.split SEMI (Js.join SEMI ps) = [[]]).
Proof.
  split.
  - intros Hne Hsemi Hst. eexists. split; [reflexivity|].
    cbn [oscType sequence]. repeat split.
    + destruct ps; [congruence|reflexivity].
    + apply parse_one_sequence. apply join_clean; [discriminate|assumption].
    + now apply split_join.
  - intros ->. eexists. split; [reflexivity|]. repeat split.
Qed.

Lemma newInvalid_sequence_witness :
  exists info,
    newInvalid [lit "X"; lit "foo"] (lit "Unknown sequence type: X")
    = Invalid info
    /\ info.(oscType) = hd [] [lit "X"; lit "foo"]
    /\ parse [info.(sequence)]
       = [parseSequence (Js.join SEMI [lit "X"; lit "foo"])]
    /\ Js.split SEMI (Js.join SEMI [lit "X"; lit "foo"])
       = [lit "X"; lit "foo"].
Proof.
  apply (proj1 (newInvalid_sequence [lit "X"; lit "foo"]
                  (lit "Unknown sequence type: X"))).
  - discriminate.
  - repeat constructor; vm_compute; intuition discriminate.
  - repeat constructor; vm_compute; intuition discriminate.
Defined.

(** *** What an [Output] never holds *)

Lemma occurrence_after_text (t x a b : str) :
  ~ In ESC t -> t ++ x = a ++ OSC633_START ++ b -> length t <= length a.
Proof.
  intros Ht Heq. apply app_eq_app in Heq as [d [[-> Hd]|[-> _]]].
  - destruct d as [|e d]; [rewrite app_nil_r; lia|].
    inversion Hd; subst. exfalso. apply Ht.
    apply in_app_iff. right. now left.
  - rewrite length_app. lia.
Qed.

Lemma startsAfter_text (out t x : str) :
  startsAfter out (t ++ x) -> ~ In ESC t -> startsAfter (out ++ t) x.
Proof.
  intros HI Ht a b Heq. rewrite <- app_assoc in Heq.
  pose proof (HI a b Heq) as Hlen.
  apply app_eq_app in Heq as [d [[-> Hd]|[-> Hd]]].
  - rewrite length_app in Hlen.
    destruct d as [|e d]; [|simpl in Hlen; lia].
    rewrite app_nil_r in *. cbn [app] in Hd. symmetry in Hd.
    pose proof (occurrence_after_text t x [] b Ht Hd) as H.
    rewrite length_app. simpl in *. lia.
  - pose proof (occurrence_after_text t x d b Ht Hd).
    rewrite !length_app. lia.
Qed.

Lemma startsAfter_stray (out r : str) :
  startsAfter out (ESC :: r) ->
  Js.startsWith (ESC :: r) OSC633_START = false ->
  startsAfter (out ++ [ESC]) r.
Proof.
  intros HI Hs a b Heq. rewrite <- app_assoc in Heq. cbn [app] in Heq.
  pose proof (HI a b Heq) as Hlen.
  apply app_eq_app in Heq as [d [[-> Hd]|[-> Hd]]].
  - rewrite length_app in Hlen.
    destruct d as [|e d]; [|simpl in Hlen; lia].
    exfalso. cbn [app] in Hd. rewrite <- Hd, startsWith_app in Hs.
    discriminate.
  - destruct d as [|e d].
    + exfalso. cbn [app] in Hd. rewrite Hd, startsWith_app in Hs.
      discriminate.
    + rewrite !length_app. simpl. lia.
Qed.

Lemma startsAfter_no_start (out buf : str) :
  startsAfter out buf -> forall a b, out <> a ++ OSC633_START ++ b.
Proof.
  intros HI a b Heq.
  assert (H : out ++ buf = a ++ OSC633_START ++ (b ++ buf))
    by (rewrite Heq; now rewrite <- !app_assoc).
  apply HI in H. rewrite Heq, !length_app in H. simpl in H. lia.
Qed.

Lemma scan_outputs_clean (buf out : str) :
  startsAfter out buf ->
  (forall value, In (Output value) (fst (scan (mkScan buf out))) ->
     forall a b, value <> a ++ OSC633_START ++ b)
  /\ startsAfter (outputBuffer (snd (scan (mkScan buf out))))
                 (buffer (snd (scan (mkScan buf out)))).
Proof.
  remember (length buf) as n eqn:Hn.
  revert buf out Hn; induction n as [n IH] using lt_wf_ind.
  intros buf out Hn HI.
  destruct (form_of buf) as [t Ht|t r Ht Hs Hp|t r Ht Hs Hp
                            |t body Ht Hb|t body rest Ht Hb].
  - rewrite scan_text by assumption. cbn [fst snd buffer outputBuffer].
    split; [intros value []|].
    apply startsAfter_text; [now rewrite app_nil_r|assumption].
  - rewrite scan_partial by assumption. cbn [fst snd buffer outputBuffer].
    split; [intros value []|]. now apply startsAfter_text.
  - rewrite scan_stray by assumption.
    apply (IH (length r)); [subst n; rewrite length_app; simpl; lia
                           |reflexivity|].
    rewrite app_assoc. apply startsAfter_stray; [|assumption].
    now apply startsAfter_text.
  - rewrite scan_open by assumption. cbn [fst snd buffer outputBuffer].
    split; [intros value []|]. now apply startsAfter_text.
  - rewrite scan_closed, fst_after, !snd_after by assumption.
    assert (Hrest : startsAfter [] rest) by (intros a b _; simpl; lia).
    destruct (IH (length rest)) with (buf := rest) (out := @nil ascii)
      as [Hout Hstate];
      [subst n; rewrite !length_app; simpl; lia|reflexivity|assumption|].
    split; [|assumption].
    intros value Hin. rewrite <- app_assoc in Hin.
    apply in_app_iff in Hin as [Hin|[Hin|Hin]].
    + unfold flushed in Hin.
      destruct (0 <? length (out ++ t)); [|contradiction].
      destruct Hin as [Hin|[]]. inversion Hin; subst.
      apply (startsAfter_no_start (out ++ t)
               (OSC633_START ++ body ++ ST :: rest)).
      now apply startsAfter_text.
    + pose proof (parseSequence_not_output body) as Hno.
      rewrite Hin in Hno. discriminate.
    + now apply Hout.
Qed.

(** X19. No [Output] that [parse] yields holds a complete sequence: in its
    value no sequence start is followed by a terminator. *)
Theorem output_without_sequence (chunks : list str) (value : str) :
  In (Output value) (parse chunks) ->
  forall a body c, value <> a ++ OSC633_START ++ body ++ ST :: c.
Proof.
  rewrite parse_scan. intros Hin a body c Heq.
  assert (HI : startsAfter [] (concat chunks)) by (intros ? ? _; simpl; lia).
  destruct (scan_outputs_clean (concat chunks) [] HI) as [Hout Hstate].
  pose proof (scan_settled (mkScan (concat chunks) [])) as Hset.
  destruct (scan (mkScan (concat chunks) [])) as [ys [buf out]].
  cbn [fst snd buffer outputBuffer] in *.
  apply in_app_iff in Hin as [Hin|Hin].
  - exact (Hout value Hin a (body ++ ST :: c) Heq).
  - rewrite finish_flushed in Hin. unfold flushed in Hin.
    destruct (0 <? length (out ++ buf)); [|contradiction].
    destruct Hin as [Hin|[]]. unfold createOutput in Hin.
    injection Hin as Hv. rewrite <- Hv in Heq.
    pose proof (Hstate a (body ++ ST :: c) Heq) as Hlen.
    apply app_eq_app in Heq as [d [[-> Hd]|[-> Hd]]].
    + rewrite length_app in Hlen.
      destruct d as [|e d]; [|simpl in Hlen; lia].
      cbn [app] in Hd.
      assert (Hst : In ST buf).
      { rewrite <- Hd, !in_app_iff. right. right. now left. }
      destruct (settled_forms _ _ Hset)
        as [->|[(r & -> & Hs & Hp)|(body' & -> & Hb)]].
      * contradiction.
      * pose proof (partial_inv r Hs Hp) as Hr. cbn [In] in Hr.
        intuition subst; vm_compute in Hst; intuition discriminate.
      * apply in_app_iff in Hst as [Hst|Hst];
          [exact (start_no_ST Hst) | contradiction].
    + assert (Hst : In ST buf).
      { rewrite Hd, !in_app_iff. right. right. right. now left. }
      destruct (settled_forms _ _ Hset)
        as [->|[(r & -> & Hs & Hp)|(body' & -> & Hb)]].
      * contradiction.
      * pose proof (partial_inv r Hs Hp) as Hr. cbn [In] in Hr.
        intuition subst; vm_compute in Hst; intuition discriminate.
      * apply in_app_iff in Hst as [Hst|Hst];
          [exact (start_no_ST Hst) | contradiction].
Qed.

Lemma output_without_sequence_witness :
  In (Output (lit "a" ++ [ESC] ++ lit "]633"))
     (parse [lit "a"; [ESC]; lit "]633"; OSC633_START ++ lit "A" ++ [ST]])
  /\ lit "a" ++ [ESC] ++ lit "]633"
     <> lit "a" ++ OSC633_START ++ [] ++ ST :: [].
Proof.
  assert (H : In (Output (lit "a" ++ [ESC] ++ lit "]633"))
                (parse [lit "a"; [ESC]; lit "]633";
                        OSC633_START ++ lit "A" ++ [ST]]))
    by (vm_compute; auto).
  split; [exact H|].
  exact (output_without_sequence _ _ H (lit "a") [] []).
Defined.

Lemma no_open_sequence_witness :
  Js.startsWith
    (residue [lit "a" ++ OSC633_START ++ lit "A" ++ ST :: lit "b"]).(buffer)
    OSC633_START = false.
Proof.
  apply (no_open_sequence (lit "a" ++ OSC633_START ++ lit "A" ++ ST :: lit "b")).
  intros before body H.
  destruct before as [|x [|y before]].
  - discriminate.
  - injection H as _ <-. vm_compute. auto.
  - exfalso. injection H as _ _ H.
    assert (Hin : In ESC (before ++ ESC :: lit "]633;" ++ body))
      by (apply in_app_iff; right; now left).
    cbn [lit String.list_ascii_of_string app] in Hin.
    rewrite <- H in Hin. vm_compute in Hin. intuition discriminate.
Defined.

(** *** The loop ends *)

(** X21. The [while] loop of [parse] ends on every state: a turn that goes
    round again leaves a shorter buffer, and the run of the loop, which
    is unique, is the one that the fuelled loop computes, so that the
    fuel never cuts a run short. *)
Theorem loop_terminates (s : Scan) :
  (forall ys s', turn s = Continue ys s' ->
     length s'.(buffer) < length s.(buffer))
  /\ Run s (fst (scan s)) (snd (scan s))
  /\ (forall ys s', Run s ys s' -> ys = fst (scan s) /\ s' = snd (scan s))
  /\ (forall fuel, length s.(buffer) <= fuel -> while_loop fuel s = scan s).
Proof.
  split; [|split; [|split]].
  - intros ys s'. apply turn_shortens.
  - apply while_loop_run.
  - intros ys s' Hrun.
    exact (Run_deterministic _ _ _ _ _ Hrun (while_loop_run s)).
  - intros fuel Hfuel. unfold scan. now apply while_loop_fuel.
Qed.

Lemma loop_terminates_witness :
  while_loop 100 (mkScan (lit "a" ++ OSC633_START ++ lit "C" ++ [ST]) [])
  = scan (mkScan (lit "a" ++ OSC633_START ++ lit "C" ++ [ST]) []).
Proof.
  apply (proj2 (proj2 (proj2
           (loop_terminates
              (mkScan (lit "a" ++ OSC633_START ++ lit "C" ++ [ST]) []))))).
  vm_compute. lia.
Defined.

(** *** A text made of sequences *)

Lemma scan_sequences (bodies : list str) (out : str) :
  Forall (fun body => ~ In ST body) bodies ->
  bodies <> [] ->
  scan (mkScan (concat (map (fun body => OSC633_START ++ body ++ [ST]) bodies))
               out)
  = (flushed out ++ map parseSequence bodies, mkScan [] []).
Proof.
  intros Hclean. revert out.
  induction Hclean as [|body bodies Hb _ IH]; intros out Hne;
    [now elim Hne|].
  cbn [map concat]. rewrite <- !app_assoc. cbn [app].
  rewrite scan_closed0 by assumption.
  destruct bodies as [|body' bodies].
  - cbn [map concat]. rewrite scan_nil. unfold after. cbn [fst snd map].
    now rewrite app_nil_r.
  - rewrite (IH []) by discriminate. unfold after. cbn [fst snd flushed].
    cbn [length Nat.ltb Nat.leb app]. now rewrite <- app_assoc.
Qed.

(** X22. A text made of terminated sequences only, whose bodies have no
    terminator, parses to the decodings of the bodies, in order, and
    no [Output]. *)
Theorem parse_sequences (chunks : list str) (bodies : list str) :
  concat chunks
  = concat (map (fun body => OSC633_START ++ body ++ [ST]) bodies) ->
  Forall (fun body => ~ In ST body) bodies ->
  parse chunks = map parseSequence bodies.
Proof.
  intros Htext Hclean. rewrite parse_scan, Htext.
  destruct bodies as [|body bodies]; [reflexivity|].
  rewrite scan_sequences by (assumption || discriminate).
  cbn [fst snd]. now rewrite app_nil_r.
Qed.

Lemma parse_sequences_witness :
  parse [OSC633_START ++ lit "A"; [ST] ++ OSC633_START ++ lit "D;0" ++ [ST]]
  = map parseSequence [lit "A"; lit "D;0"].
Proof.
  apply (parse_sequences
           [OSC633_START ++ lit "A"; [ST] ++ OSC633_START ++ lit "D;0" ++ [ST]]
           [lit "A"; lit "D;0"]).
  - reflexivity.
  - repeat constructor; vm_compute; intuition discriminate.
Defined.

(** ** The round trip on the entries *)

Lemma first_terminator (b1 r1 b2 r2 : str) :
  b1 ++ ST :: r1 = b2 ++ ST :: r2 -> ~ In ST b1 -> ~ In ST b2 ->
  b1 = b2 /\ r1 = r2.
Proof.
  revert b2; induction b1 as [|x b1 IH]; intros [|y b2] Heq H1 H2;
    cbn [app] in Heq.
  - inversion Heq. auto.
  - inversion Heq; subst. exfalso. apply H2. now left.
  - inversion Heq; subst. exfalso. apply H1. now left.
  - inversion Heq; subst.
    destruct (IH b2) as [-> ->]; auto.
    + intros H. apply H1. now right.
    + intros H. apply H2. now right.
Qed.

Lemma malformed_invalid (body : str) :
  Malformed body -> exists info, parseSequence body = Invalid info.
Proof.
  intros Hbad.
  destruct Hbad as [| |body part more Hsplit Hpart|body raw more Hsplit
                   |body type rest Hsplit Hother].
  - eexists. reflexivity.
  - eexists. reflexivity.
  - rewrite (parseSequence_parts _ _ _ Hsplit).
    change (Js.eqb P A) with false. change (Js.eqb P B) with false.
    change (Js.eqb P C) with false. change (Js.eqb P D) with false.
    change (Js.eqb P E) with false. change (Js.eqb P P) with true. cbv iota.
    unfold parsePropertyUpdate. cbn [nth_error].
    rewrite indexOf_notin by assumption. eexists. reflexivity.
  - rewrite (parseSequence_parts _ _ _ Hsplit).
    change (Js.eqb P A) with false. change (Js.eqb P B) with false.
    change (Js.eqb P C) with false. change (Js.eqb P D) with false.
    change (Js.eqb P E) with false. change (Js.eqb P P) with true. cbv iota.
    unfold parsePropertyUpdate. cbn [nth_error Js.indexOf].
    change (Ascii.eqb EQUALS EQUALS) with true. cbv iota.
    change (Js.eqb (Js.slice 0 0 (EQUALS :: raw)) []) with true. cbv iota.
    eexists. reflexivity.
  - rewrite (parseSequence_parts _ _ _ Hsplit). cbn [In] in Hother.
    repeat match goal with
           | |- context [Js.eqb type ?k] =>
               let Heq := fresh "Heq" in
               destruct (Js.eqb type k) eqn:Heq;
               [apply eqb_eq in Heq; exfalso; intuition congruence
               |clear Heq]
           end.
    eexists. reflexivity.
Qed.

(** A body that can be rebuilt is rebuilt from its decoding. *)
Lemma rebuildable_sound (body : str) :
  Rebuildable body ->
  entryText (parseSequence body) = OSC633_START ++ body ++ [ST].
Proof.
  intros Hbody.
  destruct Hbody as [| | | |exitCode Hc|command Hc Hu|command nonce Hc Hn Hu
                    |name value Hne Heq Hn Hv Hu|body Hbad].
  - reflexivity.
  - reflexivity.
  - reflexivity.
  - reflexivity.
  - rewrite parseSequence_D by assumption. cbn [entryText optionalField].
    now rewrite <- app_assoc.
  - destruct no_SEMI_in_type as (_ & HE & _).
    rewrite (parseSequence_parts _ _ _ (split_two E command HE Hc)).
    change (Js.eqb E A) with false. change (Js.eqb E B) with false.
    change (Js.eqb E C) with false. change (Js.eqb E D) with false.
    change (Js.eqb E E) with true. cbv iota.
    unfold parseCommandLine. cbn [nth_error entryText optionalField].
    rewrite Hu, <- !app_assoc. reflexivity.
  - rewrite parseSequence_E by assumption. cbn [entryText optionalField].
    rewrite Hu, <- !app_assoc. cbn [app]. now rewrite <- app_assoc.
  - rewrite parseSequence_P by assumption. cbn [entryText].
    rewrite Hu, <- !app_assoc. cbn [app]. now rewrite <- app_assoc.
  - destruct (malformed_invalid body Hbad) as [info Hinfo].
    rewrite Hinfo. cbn [entryText].
    rewrite (parseSequence_invalid _ _ Hinfo). apply wireText_body.
Qed.

Lemma sources_rebuilt (ys : list Entry) (texts : list str) :
  Forall2 Source ys texts ->
  (forall body, In (OSC633_START ++ body ++ [ST]) texts ->
     ~ In ST body -> Rebuildable body) ->
  map entryText ys = texts.
Proof.
  induction 1 as [|e w ys texts Hw _ IH]; intros Hall; [reflexivity|].
  cbn [map]. f_equal.
  - destruct Hw as [value|body Hb]; [reflexivity|].
    apply rebuildable_sound. apply Hall; [now left|assumption].
  - apply IH. intros body Hin. apply Hall. now right.
Qed.

Lemma every_nil : EverySequenceRebuildable [].
Proof. intros [|x before] body after H; discriminate. Qed.

Lemma every_text (x : ascii) (text : str) :
  x <> ESC -> EverySequenceRebuildable text ->
  EverySequenceRebuildable (x :: text).
Proof.
  intros Hx Hall [|y before] body after H Hb.
  - inversion H. congruence.
  - inversion H; subst. now apply (Hall before body after).
Qed.

Lemma every_sequence (body rest : str) :
  ~ In ST body -> ~ In ESC body -> Rebuildable body ->
  EverySequenceRebuildable rest ->
  EverySequenceRebuildable (OSC633_START ++ body ++ ST :: rest).
Proof.
  intros Hst Hesc Hbody Hall before b after H Hb.
  destruct before as [|x before].
  - cbn [app] in H. apply app_inv_head in H.
    destruct (first_terminator _ _ _ _ H Hst Hb) as [<- _]. assumption.
  - replace (OSC633_START ++ body ++ ST :: rest)
      with ((OSC633_START ++ body ++ [ST]) ++ rest) in H
      by now rewrite <- !app_assoc.
    apply app_eq_app in H as [d [[Hd H]|[Hd H]]].
    + destruct d as [|e d].
      * rewrite app_nil_r in Hd. cbn [app] in H.
        now apply (Hall [] b after).
      * exfalso.
        change (OSC633_START ++ b ++ ST :: after)
          with (ESC :: (lit "]633;" ++ b ++ ST :: after)) in H.
        cbn [app] in H. injection H as He _. subst e.
        change (OSC633_START ++ body ++ [ST])
          with (ESC :: (lit "]633;" ++ body ++ [ST])) in Hd.
        cbn [app] in Hd. injection Hd as _ Htail.
        assert (Hmem : In ESC (before ++ ESC :: d))
          by (apply in_app_iff; right; now left).
        rewrite <- Htail in Hmem.
        do 5 (destruct Hmem as [Hmem|Hmem]; [discriminate|]).
        apply in_app_iff in Hmem as [Hm|[Hm|[]]];
          [contradiction|discriminate].
    + now apply (Hall d b after).
Qed.

(** C1 as stated fails: an entry does not keep the fields that its
    type does not use, nor the escaped form of a command, so that the
    text rebuilt from the entry is not the text of the sequence. *)
Lemma fields_not_kept :
  parse [OSC633_START ++ lit "A;x" ++ [ST]] = [PromptStart]
  /\ concat (map entryText (parse [OSC633_START ++ lit "A;x" ++ [ST]]))
     <> concat [OSC633_START ++ lit "A;x" ++ [ST]]
  /\ parse [OSC633_START ++ lit "E;a\x3bb" ++ [ST]]
     = [CommandLine (lit "a;b") None]
  /\ concat (map entryText (parse [OSC633_START ++ lit "E;a\x3bb" ++ [ST]]))
     <> concat [OSC633_START ++ lit "E;a\x3bb" ++ [ST]].
Proof.
  split; [vm_compute; reflexivity|].
  split; [vm_compute; discriminate|].
  split; [vm_compute; reflexivity|].
  vm_compute. discriminate.
Qed.

(** C1, amended.  Round trip: for every sequence of fragments in which
    every sequence start that is followed by a terminator has a body
    that can be rebuilt (a body whose decoding fails, or [A], [B], [C]
    or [D] alone, [D] with one exit code, [E] with a command and at
    most a nonce, [P] with one name and value, the command and the
    value being left as they are by unescaping), the values of the
    [Output] entries, the [sequence] of the [Invalid] entries and the
    texts rebuilt from the other entries (sequence start, type and
    fields joined with [;], terminator), in the order in which [parse]
    yields the entries, make up the concatenation of the fragments. *)
Theorem round_trip_rebuilt (chunks : list str) :
  EverySequenceRebuildable (concat chunks) ->
  concat (map entryText (parse chunks)) = concat chunks.
Proof.
  intros Hall.
  destruct (parse_sources chunks) as (texts & Hsrc & Hcat).
  rewrite (sources_rebuilt _ _ Hsrc); [exact Hcat|].
  intros body Hin Hb.
  apply in_split in Hin as (l1 & l2 & ->).
  apply (Hall (concat l1) body (concat l2)); [|assumption].
  rewrite <- Hcat, concat_app. cbn [concat].
  now rewrite <- !app_assoc.
Qed.

Lemma round_trip_rebuilt_witness :
  concat (map entryText
            (parse [lit "$ "; OSC633_START ++ lit "E;ls"; ST :: lit "a.txt";
                    OSC633_START ++ lit "X;foo" ++ [ST]
                    ++ OSC633_START ++ lit "D;0" ++ [ST]]))
  = concat [lit "$ "; OSC633_START ++ lit "E;ls"; ST :: lit "a.txt";
            OSC633_START ++ lit "X;foo" ++ [ST]
            ++ OSC633_START ++ lit "D;0" ++ [ST]].
Proof.
  apply (round_trip_rebuilt
           [lit "$ "; OSC633_START ++ lit "E;ls"; ST :: lit "a.txt";
            OSC633_START ++ lit "X;foo" ++ [ST]
            ++ OSC633_START ++ lit "D;0" ++ [ST]]).
  change (concat [lit "$ "; OSC633_START ++ lit "E;ls"; ST :: lit "a.txt";
                  OSC633_START ++ lit "X;foo" ++ [ST]
                  ++ OSC633_START ++ lit "D;0" ++ [ST]])
    with ("$"%char :: " "%char ::
          OSC633_START ++ (E ++ SEMI :: lit "ls") ++ ST ::
          "a"%char :: "."%char :: "t"%char :: "x"%char :: "t"%char ::
          OSC633_START ++ lit "X;foo" ++ ST ::
          OSC633_START ++ (D ++ SEMI :: lit "0") ++ ST :: []).
  do 2 (apply every_text; [discriminate|]).
  apply every_sequence;
    [vm_compute; intuition discriminate
    |vm_compute; intuition discriminate
    |apply RebuildE; [vm_compute; intuition discriminate|reflexivity]|].
  do 5 (apply every_text; [discriminate|]).
  apply every_sequence;
    [vm_compute; intuition discriminate
    |vm_compute; intuition discriminate
    | |].
  { apply RebuildMalformed.
    apply (UnknownType (lit "X;foo") (lit "X") [lit "foo"]);
      [reflexivity|vm_compute; intuition discriminate]. }
  apply every_sequence;
    [vm_compute; intuition discriminate
    |vm_compute; intuition discriminate
    |apply RebuildDCode; vm_compute; intuition discriminate
    |apply every_nil].
Defined.

(** ** Further properties: accounting and escaping *)

Lemma source_text_unique (e : Entry) (w w' r r' : str) :
  Source e w -> Source e w' -> w ++ r = w' ++ r' -> w = w'.
Proof.
  intros H1 H2 Heq.
  destruct H1 as [value|body Hb].
  - inversion H2 as [value' Hv Hw|body' Hb' He Hw]; subst; [reflexivity|].
    pose proof (parseSequence_not_output body') as Hno.
    rewrite He in Hno. discriminate.
  - inversion H2 as [value' Hv Hw|body' Hb' He Hw]; subst.
    + pose proof (parseSequence_not_output body) as Hno.
      rewrite <- Hv in Hno. discriminate.
    + rewrite <- !app_assoc in Heq. apply app_inv_head in Heq.
      cbn [app] in Heq.
      now destruct (first_terminator _ _ _ _ Heq Hb Hb') as [-> _].
Qed.

Lemma sources_unique (ys : list Entry) (texts texts' : list str) :
  Forall2 Source ys texts -> Forall2 Source ys texts' ->
  concat texts = concat texts' -> texts = texts'.
Proof.
  intros H1; revert texts'.
  induction H1 as [|e w ys texts Hw _ IH]; intros texts' H2 Heq;
    inversion H2 as [|e' w' ys' ts' Hw' Hrest]; subst; [reflexivity|].
  cbn [concat] in Heq.
  pose proof (source_text_unique _ _ _ _ _ Hw Hw' Heq) as <-.
  apply app_inv_head in Heq. f_equal. now apply IH.
Qed.

(** X23. The text is made up, in order, of one piece for each entry
    that [parse] yields: the value of each [Output] as it is, and for
    each other entry a sequence start, a body without terminator that
    decodes to the entry, and the terminator.  There is one way only to
    cut the text into such pieces. *)
Theorem input_tiling (chunks : list str) :
  exists texts,
    Forall2 Source (parse chunks) texts
    /\ concat texts = concat chunks
    /\ (forall texts',
           Forall2 Source (parse chunks) texts' ->
           concat texts' = concat chunks -> texts' = texts).
Proof.
  destruct (parse_sources chunks) as (texts & Hsrc & Hcat).
  exists texts. repeat split; try assumption.
  intros texts' Hsrc' Hcat'.
  apply (sources_unique (parse chunks)); [assumption|assumption|].
  now rewrite Hcat, Hcat'.
Qed.

(** X24. On a value in which no doubled backslash stands in front of
    [x3b] or [x0a], [unescapeValue] gives what decoding every marker of
    the value once, from left to right, gives; and a value that begins
    with a marker of the semicolon or the newline unescapes to that
    character followed by the unescaping of the rest. *)
Theorem unescape_one_pass (value : str) :
  (includes value (lit "\\x3b") = false ->
   includes value (lit "\\x0a") = false ->
   unescapeValue value = unescapeOnePass value)
  /\ unescapeValue (lit "\x3b" ++ value) = SEMI :: unescapeValue value
  /\ unescapeValue (lit "\x0a" ++ value) = NEWLINE :: unescapeValue value.
Proof.
  split; [|split].
  - intros H3b H0a. apply (unescape_agree (length value)); auto.
  - apply unescapeValue_semi.
  - apply unescapeValue_newline.
Qed.

Lemma unescape_one_pass_witness :
  unescapeValue (lit "/path\x3bwith\x0asemicolon\\and\\backslash")
  = unescapeOnePass (lit "/path\x3bwith\x0asemicolon\\and\\backslash").
Proof.
  apply (proj1 (unescape_one_pass
                  (lit "/path\x3bwith\x0asemicolon\\and\\backslash")));
    reflexivity.
Defined.

Lemma startsWith_readmeEscape (q value : str) :
  ~ In SEMI q -> ~ In NEWLINE q -> ~ In BACKSLASH q ->
  Js.startsWith (readmeEscape value) q = Js.startsWith value q.
Proof.
  revert value; induction q as [|y q IH]; intros value Hs Hn Hb;
    [reflexivity|].
  destruct value as [|x value]; [reflexivity|].
  assert (Hys : Ascii.eqb SEMI y = false)
    by (apply Ascii.eqb_neq; intros <-; apply Hs; now left).
  assert (Hyn : Ascii.eqb NEWLINE y = false)
    by (apply Ascii.eqb_neq; intros <-; apply Hn; now left).
  assert (Hyb : Ascii.eqb BACKSLASH y = false)
    by (apply Ascii.eqb_neq; intros <-; apply Hb; now left).
  unfold readmeEscape. cbn [map concat]. unfold readmeEscapeChar.
  destruct (Ascii.eqb_spec x SEMI) as [->|_].
  { change (lit "\x3b") with (BACKSLASH :: lit "x3b"). cbn [app].
    now rewrite !startsWith_cons, Hyb, Hys. }
  destruct (Ascii.eqb_spec x NEWLINE) as [->|_].
  { change (lit "\x0a") with (BACKSLASH :: lit "x0a"). cbn [app].
    now rewrite !startsWith_cons, Hyb, Hyn. }
  destruct (Ascii.eqb_spec x BACKSLASH) as [->|_].
  { change (lit "\\") with (BACKSLASH :: [BACKSLASH]). cbn [app].
    now rewrite !startsWith_cons, Hyb. }
  cbn [app]. rewrite !startsWith_cons. f_equal.
  apply IH; intros H; [apply Hs|apply Hn|apply Hb]; now right.
Qed.

(** X25. The escaping that the README prescribes is undone by
    [unescapeValue] on every value that holds neither a backslash
    followed by [x3b] nor a backslash followed by [x0a]. *)
Theorem readme_round_trip (value : str) :
  includes value (lit "\x3b") = false ->
  includes value (lit "\x0a") = false ->
  unescapeValue (readmeEscape value) = value.
Proof.
  induction value as [|x value IH]; intros H3b H0a; [reflexivity|].
  apply includes_tail in H3b as [S3b I3b].
  apply includes_tail in H0a as [S0a I0a].
  specialize (IH I3b I0a).
  change (readmeEscape (x :: value))
    with (readmeEscapeChar x ++ readmeEscape value).
  unfold readmeEscapeChar.
  destruct (Ascii.eqb_spec x SEMI) as [->|Hs].
  { now rewrite unescapeValue_semi, IH. }
  destruct (Ascii.eqb_spec x NEWLINE) as [->|Hn].
  { now rewrite unescapeValue_newline, IH. }
  destruct (Ascii.eqb_spec x BACKSLASH) as [->|Hb].
  { change (lit "\x3b") with (BACKSLASH :: lit "x3b") in S3b.
    change (lit "\x0a") with (BACKSLASH :: lit "x0a") in S0a.
    rewrite startsWith_cons, Ascii.eqb_refl in S3b, S0a.
    cbn [andb] in S3b, S0a.
    rewrite unescapeValue_backslash, IH; [reflexivity| |];
      rewrite startsWith_readmeEscape;
      try assumption; vm_compute; intuition discriminate. }
  cbn [app].
  assert (Hx : Ascii.eqb x BACKSLASH = false) by now apply Ascii.eqb_neq.
  rewrite unescapeValue_other, IH; [reflexivity| | |].
  - change (lit "\x3b") with (BACKSLASH :: lit "x3b").
    now rewrite startsWith_cons, Hx.
  - change (lit "\x0a") with (BACKSLASH :: lit "x0a").
    now rewrite startsWith_cons, Hx.
  - change (lit "\\") with (BACKSLASH :: [BACKSLASH]).
    now rewrite startsWith_cons, Hx.
Qed.

Lemma readme_round_trip_witness :
  unescapeValue (readmeEscape (lit "cd C:\tmp; echo \\x"))
  = lit "cd C:\tmp; echo \\x".
Proof.
  apply (readme_round_trip (lit "cd C:\tmp; echo \\x")); reflexivity.
Defined.

(** The value backslash, [x3b], escaped as the README prescribes and
    unescaped by the code. *)
Example readme_escape_of_marker_text :
  readmeEscape (lit "\x3b") = lit "\\x3b"
  /\ unescapeValue (readmeEscape (lit "\x3b")) = lit "\;".
Proof. split; vm_compute; reflexivity. Qed.
